(** * tsvToMYSQLTiDB: a streaming bulk loader from delimited text to MySQL/TiDB

    The repository holds two variants of one Go program:
    - [Base]   : [src/tsvToMYSQLTiDB.go]  (plain [int] counters, no upsert);
    - [Upsert] : [src/unnamed/part_000]   ([int64] counters updated with
                 [sync/atomic], the [enable_update] option).

    This file embeds both.  The pure helpers ([parseSysArgs], [parseColumns],
    [repalceNULLByDEFAULT]) are functions; [main] and its goroutines
    ([insert], [startConnectionController], [startLogger]) are a labelled
    step function on an explicit state: one step of one goroutine per label,
    every interleaving being a schedule (a list of labels). *)

From Stdlib Require Import ZArith Lia Ascii.
From stdpp Require Import base tactics option list numbers strings.

Local Open Scope Z_scope.

(* ===================================================================== *)
(** * Machine integers *)
(* ===================================================================== *)

(** Go's [int] (on the 64-bit targets the tool is built for) and [int64]:
    two's complement, arithmetic wraps around silently. *)
Module Int.

Definition min : Z := - 2 ^ 63.
Definition max : Z := 2 ^ 63 - 1.

Definition in_range (z : Z) : Prop := min <= z <= max.
Definition in_rangeb (z : Z) : bool := (min <=? z) && (z <=? max).

Definition wrap (z : Z) : Z := (z + 2 ^ 63) mod 2 ^ 64 - 2 ^ 63.

Definition add (a b : Z) : Z := wrap (a + b).
Definition sub (a b : Z) : Z := wrap (a - b).
Definition neg (a : Z) : Z := wrap (- a).

End Int.

(* ===================================================================== *)
(** * Strings, runes *)
(* ===================================================================== *)

(** A Go string is a sequence of bytes: Rocq's [string].  [+:+] is Go's
    string [+]. *)

Definition byte_of (a : ascii) : Z := Z.of_N (N_of_ascii a).

(** The conversion [[]rune(s)] decodes UTF-8, one rune at a time, with the
    rules of [utf8.DecodeRuneInString]: an invalid or truncated sequence
    yields [RuneError] and consumes one byte. *)
Definition RuneError : Z := 0xFFFD.

(** [first[p0]] of package utf8 for a lead byte [p0 >= 0x80]: the length of
    the sequence and the accepted range of the second byte. *)
Definition lead_info (p0 : Z) : option (Z * Z * Z) :=
  if p0 <? 0xC2 then None
  else if p0 <? 0xE0 then Some (2, 0x80, 0xBF)
  else if p0 =? 0xE0 then Some (3, 0xA0, 0xBF)
  else if p0 <? 0xED then Some (3, 0x80, 0xBF)
  else if p0 =? 0xED then Some (3, 0x80, 0x9F)
  else if p0 <? 0xF0 then Some (3, 0x80, 0xBF)
  else if p0 =? 0xF0 then Some (4, 0x90, 0xBF)
  else if p0 <? 0xF4 then Some (4, 0x80, 0xBF)
  else if p0 =? 0xF4 then Some (4, 0x80, 0x8F)
  else None.

Definition is_cont (b : Z) : bool := (0x80 <=? b) && (b <=? 0xBF).

Definition DecodeRuneInString (s : string) : Z * nat :=
  match s with
  | EmptyString => (RuneError, 0%nat)
  | String a0 t0 =>
    let p0 := byte_of a0 in
    if p0 <? 0x80 then (p0, 1%nat)
    else match lead_info p0 with
    | None => (RuneError, 1%nat)
    | Some (sz, lo, hi) =>
      match t0 with
      | EmptyString => (RuneError, 1%nat)
      | String a1 t1 =>
        let b1 := byte_of a1 in
        if (b1 <? lo) || (hi <? b1) then (RuneError, 1%nat)
        else if sz <=? 2 then
          (Z.lor (Z.shiftl (Z.land p0 0x1F) 6) (Z.land b1 0x3F), 2%nat)
        else match t1 with
        | EmptyString => (RuneError, 1%nat)
        | String a2 t2 =>
          let b2 := byte_of a2 in
          if negb (is_cont b2) then (RuneError, 1%nat)
          else if sz <=? 3 then
            (Z.lor (Z.lor (Z.shiftl (Z.land p0 0x0F) 12)
                          (Z.shiftl (Z.land b1 0x3F) 6))
                   (Z.land b2 0x3F), 3%nat)
          else match t2 with
          | EmptyString => (RuneError, 1%nat)
          | String a3 _ =>
            let b3 := byte_of a3 in
            if negb (is_cont b3) then (RuneError, 1%nat)
            else
              (Z.lor (Z.lor (Z.lor (Z.shiftl (Z.land p0 0x07) 18)
                                   (Z.shiftl (Z.land b1 0x3F) 12))
                            (Z.shiftl (Z.land b2 0x3F) 6))
                     (Z.land b3 0x3F), 4%nat)
          end
        end
      end
    end
  end.

Fixpoint drop_bytes (n : nat) (s : string) : string :=
  match n, s with
  | S n', String _ t => drop_bytes n' t
  | _, _ => s
  end.

(** [[]rune(s)]; the fuel is the byte length, every round consumes at least
    one byte. *)
Fixpoint runes_fuel (fuel : nat) (s : string) : list Z :=
  match fuel, s with
  | S fuel', String _ _ =>
    let '(r, size) := DecodeRuneInString s in
    r :: runes_fuel fuel' (drop_bytes size s)
  | _, _ => []
  end.

Definition runes (s : string) : list Z := runes_fuel (String.length s) s.

(** [string(r)] for a rune below [0x80], all the defaults need. *)
Definition string_of_ascii_rune (r : Z) : string :=
  String (ascii_of_N (Z.to_N r)) EmptyString.

(** [strings.Join]-style concatenation, used to state what a statement
    looks like. *)
Fixpoint join (sep : string) (l : list string) : string :=
  match l with
  | [] => ""
  | [x] => x
  | x :: rest => x +:+ sep +:+ join sep rest
  end.

(* ===================================================================== *)
(** * Configuration: the package-level variables and [parseSysArgs] *)
(* ===================================================================== *)

Inductive variant := Base | Upsert.

#[global] Instance variant_eq_dec : EqDecision variant.
Proof. solve_decision. Defined.

(** How the process ends. *)
Inductive exit :=
| Returned                 (* main returned: status 0 *)
| Fatal (msg : string)     (* log.Fatal: the message, then os.Exit(1) *)
| Panicked (msg : string). (* run-time panic: status 2 *)

Definition exit_status (e : exit) : Z :=
  match e with
  | Returned => 0
  | Fatal _ => 1
  | Panicked _ => 2
  end.

(** The [var (...)] block. [ON_DUP_KEYS_UPDATE] exists in [Upsert] only;
    [Base] never reads it. *)
Record globals := Globals {
  TABLENAME : string;
  FILENAME : string;
  DELIMITER : Z;
  MAX_SQL_CONNECTIONS : Z;
  CONN_STR : string;
  ON_DUP_KEYS_UPDATE : bool
}.

Definition defaults (v : variant) : globals :=
  {| TABLENAME := "";
     FILENAME := "";
     DELIMITER := 9;
     MAX_SQL_CONNECTIONS := match v with Base => 50 | Upsert => 100 end;
     CONN_STR := "";
     ON_DUP_KEYS_UPDATE := false |}.

(** What [flag.Parse] found on the command line: [None] where a flag is
    not given (its default applies).  [arg_enable_update] is a flag of
    [Upsert] only. *)
Record cmdline := Cmdline {
  arg_db : option string;
  arg_table : option string;
  arg_d : option string;
  arg_conns : option Z;
  arg_enable_update : option bool
}.

Definition no_args : cmdline := Cmdline None None None None None.

Definition index_panic : exit :=
  Panicked "index out of range [0] with length 0".

Definition parseSysArgs (v : variant) (cl : cmdline) : globals + exit :=
  let g := defaults v in
  let db := default (CONN_STR g) (arg_db cl) in
  let table := default (TABLENAME g) (arg_table cl) in
  let delimiter := default (string_of_ascii_rune (DELIMITER g)) (arg_d cl) in
  let max_conns := default (MAX_SQL_CONNECTIONS g) (arg_conns cl) in
  let on_dup_keys_update :=
    match v with
    | Base => ON_DUP_KEYS_UPDATE g
    | Upsert => default (ON_DUP_KEYS_UPDATE g) (arg_enable_update cl)
    end in
  (* DELIMITER = the rune at index 0 of the delimiter's rune slice *)
  match runes delimiter with
  | [] => inr index_panic
  | r :: _ =>
    inl {| TABLENAME := table;
           FILENAME := FILENAME g;
           DELIMITER := r;
           MAX_SQL_CONNECTIONS := max_conns;
           CONN_STR := db;
           ON_DUP_KEYS_UPDATE := on_dup_keys_update |}
  end.

(* ===================================================================== *)
(** * The statement builder [parseColumns] *)
(* ===================================================================== *)

Module BaseSrc.

(** The loop body of [parseColumns] at index [i], column [c]. *)
Definition parseColumns_body (i : nat) (c : string) (st : string * string)
  : string * string :=
  let '(query, placeholder) := st in
  if (i =? 0)%nat then (query +:+ c, placeholder +:+ "?")
  else (query +:+ (", " +:+ c), placeholder +:+ ", ?").

Fixpoint parseColumns_loop (i : nat) (columns : list string)
    (st : string * string) : string * string :=
  match columns with
  | [] => st
  | c :: rest => parseColumns_loop (S i) rest (parseColumns_body i c st)
  end.

Definition parseColumns (g : globals) (columns : list string) : string :=
  let query := "INSERT INTO " +:+ TABLENAME g +:+ " (" in
  let placeholder := "VALUES (" in
  let '(query, placeholder) := parseColumns_loop 0 columns (query, placeholder) in
  let placeholder := placeholder +:+ ")" in
  query +:+ (") " +:+ placeholder).

End BaseSrc.

Module UpsertSrc.

Definition parseColumns_body (i : nat) (c : string)
    (st : string * string * string) : string * string * string :=
  let '(query, placeholder, update) := st in
  if (i =? 0)%nat then
    (query +:+ c, placeholder +:+ "?",
     update +:+ (c +:+ "=VALUES(" +:+ c +:+ ")"))
  else
    (query +:+ (", " +:+ c), placeholder +:+ ", ?",
     update +:+ (", " +:+ c +:+ "=VALUES(" +:+ c +:+ ")")).

Fixpoint parseColumns_loop (i : nat) (columns : list string)
    (st : string * string * string) : string * string * string :=
  match columns with
  | [] => st
  | c :: rest => parseColumns_loop (S i) rest (parseColumns_body i c st)
  end.

Definition parseColumns (g : globals) (columns : list string) : string :=
  let query := "INSERT INTO " +:+ TABLENAME g +:+ " (" in
  let placeholder := "VALUES (" in
  let update := "ON DUPLICATE KEY UPDATE " in
  let '(query, placeholder, update) :=
    parseColumns_loop 0 columns (query, placeholder, update) in
  let placeholder := placeholder +:+ ")" in
  let query := query +:+ (") " +:+ placeholder) in
  if ON_DUP_KEYS_UPDATE g then query +:+ update else query.

End UpsertSrc.

Definition parseColumns (v : variant) : globals → list string → string :=
  match v with
  | Base => BaseSrc.parseColumns
  | Upsert => UpsertSrc.parseColumns
  end.

(* ===================================================================== *)
(** * The argument list [repalceNULLByDEFAULT] *)
(* ===================================================================== *)

(** An [interface{}] argument of [stmt.Exec]: [nil] or a string. *)
Inductive arg := Nil | Str (s : string).

#[global] Instance arg_eq_dec : EqDecision arg.
Proof. solve_decision. Defined.

Definition convert_field (v : string) : arg :=
  if String.eqb v "NULL" then Nil else Str v.

(** [for k, v := range s { ... i[k] = ... }] from index [k] on. *)
Fixpoint repalceNULLByDEFAULT_loop (k : nat) (s : list string) (i : list arg)
  : list arg :=
  match s with
  | [] => i
  | v :: rest =>
    repalceNULLByDEFAULT_loop (S k) rest
      (if String.eqb v "NULL" then <[k := Nil]> i else <[k := Str v]> i)
  end.

Definition repalceNULLByDEFAULT (s : list string) : list arg :=
  let i := replicate (length s) Nil in   (* make([]interface{}, len(s)) *)
  repalceNULLByDEFAULT_loop 0 s i.

(* ===================================================================== *)
(** * The world outside: standard input and the database *)
(* ===================================================================== *)

(** One call of [reader.Read()] of package encoding/csv yields a record or
    an error; [io.EOF] is the end of the list. *)
Inductive read_result :=
| Record_ (fields : list string)
| ReadError (msg : string).

(** The database as the program meets it: [sql.Open] and [db.Ping] at
    start, then one [db.Prepare] and one [stmt.Exec] per task.  Each answer
    is [None] (no error) or [Some] error text; the answers for a task are
    keyed by the task's id. *)
Record database := Database {
  db_open : option string;
  db_ping : option string;
  db_prepare : Z → string → option string;
  db_exec : Z → string → list arg → option string
}.

(** Lines written with package log (elapsed time and the rates computed
    from it are left out: the clock is not modelled). *)
Inductive log_line :=
| LogInsertError (id : Z) (conns : option Z) (msg : string)
| LogStatus (insertions connections fails : Z)
| LogReport (insertions valid : Z).

(* ===================================================================== *)
(** * Goroutines and their program points *)
(* ===================================================================== *)

(** [insert]: the program point names the statement about to run. *)
Inductive wpc :=
| WAdd                (* Upsert: atomic.AddInt64(connections, 1) *)
| WPrepare            (* stmt, err := db.Prepare(query) *)
| WExec               (* _, err = stmt.Exec(args...) *)
| WSub (out : Z)      (* Upsert: atomic.AddInt64(connections, -1) *)
| WSend (out : Z)     (* callback <- out *)
| WDeferred           (* deferred: stmt.Close(), wg.Done() *)
| WExited.

Record worker := Worker {
  w_id : Z;
  w_query : string;
  w_args : list arg;
  w_pc : wpc
}.

(** The goroutine of [startConnectionController]. *)
Inductive cpc :=
| CCount              (* insertions += 1 *)
| CRecv               (* id := <-callback *)
| CTest (id : Z)      (* if id < 0 { fails += 1 } *)
| CConnLoad           (* Base: the load of connections -= 1 *)
| CConnStore (c : Z)  (* Base: the store of connections -= 1 *)
| CRelease.           (* available <- true *)

(** [main] from the read loop on. *)
Inductive mpc :=
| MRead                                   (* record, err := reader.Read() *)
| MAcquire (record : list string)         (* else if <-available *)
| MConnLoad (record : list string)        (* Base: the load of connections += 1 *)
| MConnStore (record : list string) (c : Z)  (* Base: its store *)
| MDispatch (record : list string)        (* id++, wg.Add(1), args, go insert *)
| MWait                                   (* wg.Wait() *)
| MDrain                                  (* for ; len(callback) > 0; {} *)
| MReport.                                (* the final log.Printf lines, return *)

Record state := State {
  st_exit : option exit;        (* [Some]: the process has ended *)
  st_log : list log_line;
  (* locals of main *)
  m_pc : mpc;
  unread : list read_result;
  query : string;
  id : Z;
  isFirstRow : bool;
  wg : nat;
  (* shared with the goroutines *)
  callback : list Z;            (* chan int, capacity 1024 *)
  available : list bool;        (* chan bool, capacity MAX_SQL_CONNECTIONS *)
  connections : Z;
  insertions : Z;
  fails : Z;
  c_pc : cpc;
  workers : list worker         (* every goroutine started by go insert *)
}.

Definition set_exit (e : exit) (s : state) : state :=
  State (Some e) (st_log s) (m_pc s) (unread s) (query s) (id s) (isFirstRow s)
    (wg s) (callback s) (available s) (connections s) (insertions s) (fails s)
    (c_pc s) (workers s).
Definition add_log (l : log_line) (s : state) : state :=
  State (st_exit s) (st_log s ++ [l]) (m_pc s) (unread s) (query s) (id s)
    (isFirstRow s) (wg s) (callback s) (available s) (connections s)
    (insertions s) (fails s) (c_pc s) (workers s).
Definition set_m_pc (pc : mpc) (s : state) : state :=
  State (st_exit s) (st_log s) pc (unread s) (query s) (id s) (isFirstRow s)
    (wg s) (callback s) (available s) (connections s) (insertions s) (fails s)
    (c_pc s) (workers s).
Definition set_unread (u : list read_result) (s : state) : state :=
  State (st_exit s) (st_log s) (m_pc s) u (query s) (id s) (isFirstRow s)
    (wg s) (callback s) (available s) (connections s) (insertions s) (fails s)
    (c_pc s) (workers s).
Definition set_query (q : string) (s : state) : state :=
  State (st_exit s) (st_log s) (m_pc s) (unread s) q (id s) (isFirstRow s)
    (wg s) (callback s) (available s) (connections s) (insertions s) (fails s)
    (c_pc s) (workers s).
Definition set_id (i : Z) (s : state) : state :=
  State (st_exit s) (st_log s) (m_pc s) (unread s) (query s) i (isFirstRow s)
    (wg s) (callback s) (available s) (connections s) (insertions s) (fails s)
    (c_pc s) (workers s).
Definition set_isFirstRow (b : bool) (s : state) : state :=
  State (st_exit s) (st_log s) (m_pc s) (unread s) (query s) (id s) b
    (wg s) (callback s) (available s) (connections s) (insertions s) (fails s)
    (c_pc s) (workers s).
Definition set_wg (n : nat) (s : state) : state :=
  State (st_exit s) (st_log s) (m_pc s) (unread s) (query s) (id s)
    (isFirstRow s) n (callback s) (available s) (connections s) (insertions s)
    (fails s) (c_pc s) (workers s).
Definition set_callback (c : list Z) (s : state) : state :=
  State (st_exit s) (st_log s) (m_pc s) (unread s) (query s) (id s)
    (isFirstRow s) (wg s) c (available s) (connections s) (insertions s)
    (fails s) (c_pc s) (workers s).
Definition set_available (a : list bool) (s : state) : state :=
  State (st_exit s) (st_log s) (m_pc s) (unread s) (query s) (id s)
    (isFirstRow s) (wg s) (callback s) a (connections s) (insertions s)
    (fails s) (c_pc s) (workers s).
Definition set_connections (c : Z) (s : state) : state :=
  State (st_exit s) (st_log s) (m_pc s) (unread s) (query s) (id s)
    (isFirstRow s) (wg s) (callback s) (available s) c (insertions s)
    (fails s) (c_pc s) (workers s).
Definition set_insertions (i : Z) (s : state) : state :=
  State (st_exit s) (st_log s) (m_pc s) (unread s) (query s) (id s)
    (isFirstRow s) (wg s) (callback s) (available s) (connections s) i
    (fails s) (c_pc s) (workers s).
Definition set_fails (f : Z) (s : state) : state :=
  State (st_exit s) (st_log s) (m_pc s) (unread s) (query s) (id s)
    (isFirstRow s) (wg s) (callback s) (available s) (connections s)
    (insertions s) f (c_pc s) (workers s).
Definition set_c_pc (pc : cpc) (s : state) : state :=
  State (st_exit s) (st_log s) (m_pc s) (unread s) (query s) (id s)
    (isFirstRow s) (wg s) (callback s) (available s) (connections s)
    (insertions s) (fails s) pc (workers s).
Definition set_workers (w : list worker) (s : state) : state :=
  State (st_exit s) (st_log s) (m_pc s) (unread s) (query s) (id s)
    (isFirstRow s) (wg s) (callback s) (available s) (connections s)
    (insertions s) (fails s) (c_pc s) w.

Definition set_w_pc (pc : wpc) (w : worker) : worker :=
  Worker (w_id w) (w_query w) (w_args w) pc.

(** The scheduler's choice: which goroutine takes its next step. *)
Inductive actor :=
| Main
| Collector
| Insert (k : nat)     (* the k-th goroutine started by [go insert] *)
| Logger.

Definition callback_cap : nat := 1024.

(* ===================================================================== *)
(** * One step of each goroutine *)
(* ===================================================================== *)

Section Pipeline.

Variable v : variant.
Variable g : globals.
Variable db : database.

(** The first value of [id] in [main]. *)
Definition id_init : Z := match v with Base => 1 | Upsert => -1 end.

(** [main] up to the read loop; [inr]: the process ended before the loop,
    nothing was read from standard input. *)
Definition main_init (stdin : list read_result) : state + exit :=
  match db_open db with
  | Some err => inr (Fatal err)
  | None =>
    match db_ping db with
    | Some err => inr (Fatal err)
    | None =>
      (* make(chan bool, MAX_SQL_CONNECTIONS) *)
      if MAX_SQL_CONNECTIONS g <? 0 then inr (Panicked "makechan: size out of range")
      else inl
        {| st_exit := None;
           st_log := [];
           m_pc := MRead;
           unread := stdin;
           query := "";
           id := id_init;
           isFirstRow := true;
           wg := 0%nat;
           callback := [];
           available := replicate (Z.to_nat (MAX_SQL_CONNECTIONS g)) true;
           connections := 0;
           insertions := 0;
           fails := 0;
           c_pc := CCount;
           workers := [] |}
    end
  end.

Definition main_step (s : state) : option state :=
  match m_pc s with
  | MRead =>
    match unread s with
    | [] => Some (set_m_pc MWait s)                      (* io.EOF: break *)
    | ReadError msg :: _ => Some (set_exit (Fatal msg) s)  (* log.Fatal *)
    | Record_ record :: rest =>
      let s := set_unread rest s in
      if isFirstRow s then
        Some (set_isFirstRow false (set_query (parseColumns v g record) s))
      else Some (set_m_pc (MAcquire record) s)
    end
  | MAcquire record =>
    match available s with
    | [] => None                                          (* blocked *)
    | b :: rest =>
      let s := set_available rest s in
      if b then
        Some (set_m_pc (match v with
                        | Base => MConnLoad record
                        | Upsert => MDispatch record
                        end) s)
      else Some (set_m_pc MRead s)
    end
  | MConnLoad record => Some (set_m_pc (MConnStore record (connections s)) s)
  | MConnStore record c =>
    Some (set_m_pc (MDispatch record) (set_connections (Int.add c 1) s))
  | MDispatch record =>
    let id' := Int.add (id s) 1 in
    let args := repalceNULLByDEFAULT record in
    let w := {| w_id := id'; w_query := query s; w_args := args;
                w_pc := match v with Base => WPrepare | Upsert => WAdd end |} in
    Some (set_m_pc MRead
           (set_workers (workers s ++ [w])
             (set_wg (S (wg s)) (set_id id' s))))
  | MWait =>
    match wg s with
    | O => Some (set_m_pc MDrain s)
    | S _ => None                                         (* blocked *)
    end
  | MDrain =>
    match callback s with
    | [] => Some (set_m_pc MReport s)
    | _ :: _ => Some s                                    (* spins *)
    end
  | MReport =>
    Some (set_exit Returned
           (add_log (LogReport (insertions s)
                               (Int.sub (insertions s) (fails s))) s))
  end.

Definition collector_step (s : state) : option state :=
  match c_pc s with
  | CCount =>
    Some (set_c_pc CRecv (set_insertions (Int.add (insertions s) 1) s))
  | CRecv =>
    match callback s with
    | [] => None                                          (* blocked *)
    | id :: rest => Some (set_c_pc (CTest id) (set_callback rest s))
    end
  | CTest id =>
    let s := if id <? 0 then set_fails (Int.add (fails s) 1) s else s in
    Some (set_c_pc (match v with Base => CConnLoad | Upsert => CRelease end) s)
  | CConnLoad => Some (set_c_pc (CConnStore (connections s)) s)
  | CConnStore c =>
    Some (set_c_pc CRelease (set_connections (Int.sub c 1) s))
  | CRelease =>
    if (length (available s) <? Z.to_nat (MAX_SQL_CONNECTIONS g))%nat then
      Some (set_c_pc CCount (set_available (available s ++ [true]) s))
    else None                                             (* blocked *)
  end.

Definition set_worker (k : nat) (w : worker) (s : state) : state :=
  set_workers (<[k := w]> (workers s)) s.

Definition insert_step (k : nat) (s : state) : option state :=
  match workers s !! k with
  | None => None
  | Some w =>
    match w_pc w with
    | WAdd =>
      Some (set_worker k (set_w_pc WPrepare w)
             (set_connections (Int.add (connections s) 1) s))
    | WPrepare =>
      match db_prepare db (w_id w) (w_query w) with
      | Some err => Some (set_exit (Fatal err) s)         (* log.Fatal *)
      | None => Some (set_worker k (set_w_pc WExec w) s)
      end
    | WExec =>
      let next out :=
        match v with Base => WSend out | Upsert => WSub out end in
      match db_exec db (w_id w) (w_query w) (w_args w) with
      | Some err =>
        let line :=
          LogInsertError (w_id w)
            (match v with Base => Some (connections s) | Upsert => None end)
            err in
        Some (set_worker k (set_w_pc (next (Int.neg (w_id w))) w)
               (add_log line s))
      | None => Some (set_worker k (set_w_pc (next (w_id w)) w) s)
      end
    | WSub out =>
      Some (set_worker k (set_w_pc (WSend out) w)
             (set_connections (Int.add (connections s) (-1)) s))
    | WSend out =>
      if (length (callback s) <? callback_cap)%nat then
        Some (set_worker k (set_w_pc WDeferred w)
               (set_callback (callback s ++ [out]) s))
      else None                                           (* blocked *)
    | WDeferred =>
      match wg s with
      | O => Some (set_exit (Panicked "sync: negative WaitGroup counter") s)
      | S n => Some (set_worker k (set_w_pc WExited w) (set_wg n s))
      end
    | WExited => None
    end
  end.

Definition logger_step (s : state) : option state :=
  Some (add_log (LogStatus (insertions s) (connections s) (fails s)) s).

(** A step of the process: nothing runs once it has exited. *)
Definition step (a : actor) (s : state) : option state :=
  match st_exit s with
  | Some _ => None
  | None =>
    match a with
    | Main => main_step s
    | Collector => collector_step s
    | Insert k => insert_step k s
    | Logger => logger_step s
    end
  end.

Fixpoint run (sched : list actor) (s : state) : option state :=
  match sched with
  | [] => Some s
  | a :: rest =>
    match step a s with
    | Some s' => run rest s'
    | None => None
    end
  end.

Definition reachable (stdin : list read_result) (s : state) : Prop :=
  ∃ s0 sched, main_init stdin = inl s0 ∧ run sched s0 = Some s.

End Pipeline.

(** The whole program: [parseSysArgs], then [main]. *)
Definition program_start (v : variant) (cl : cmdline) (db : database)
    (stdin : list read_result) : state + exit :=
  match parseSysArgs v cl with
  | inr e => inr e
  | inl g => main_init v g db stdin
  end.

(* ===================================================================== *)
(** * Vocabulary of the properties *)
(* ===================================================================== *)

Global Arguments Int.wrap : simpl never.
Global Arguments Int.add : simpl never.
Global Arguments Int.sub : simpl never.
Global Arguments Int.neg : simpl never.

(** ** Statements *)

Definition placeholders (n : nat) : string := join ", " (replicate n "?").

(** The insertion statement for a table and its columns. *)
Definition insert_statement (table : string) (columns : list string) : string :=
  "INSERT INTO " +:+ table +:+ " (" +:+ join ", " columns +:+ ") VALUES ("
    +:+ placeholders (length columns) +:+ ")".

Definition assignment (c : string) : string := c +:+ "=VALUES(" +:+ c +:+ ")".

Definition update_clause (columns : list string) : string :=
  "ON DUPLICATE KEY UPDATE " +:+ join ", " (map assignment columns).

Fixpoint count_char (c : ascii) (s : string) : nat :=
  match s with
  | EmptyString => 0
  | String a t => (if Ascii.eqb a c then 1 else 0) + count_char c t
  end.

(** Text that the iterations after the first one append. *)
Definition tail_text (f : string → string) (l : list string) : string :=
  foldr (λ c acc, f c +:+ acc) "" l.

(** Whether the upsert option is on: [Base] has none. *)
Definition upsert_enabled (v : variant) (g : globals) : bool :=
  match v with Base => false | Upsert => ON_DUP_KEYS_UPDATE g end.

(** A command line with the [-d] flag set to [d]. *)
Definition with_d (d : string) (cl : cmdline) : cmdline :=
  Cmdline (arg_db cl) (arg_table cl) (Some d) (arg_conns cl)
          (arg_enable_update cl).

(** ** Tokens and tasks

    A token of [available] is out from the moment [main] receives it until
    the collector sends it back.  In between it travels with the record in
    [main], with the goroutine running [insert] until that has sent its
    outcome, with the outcome queued in [callback], and with the collector
    while it handles the outcome. *)

Definition holds_token (w : worker) : nat :=
  match w_pc w with WDeferred | WExited => 0 | _ => 1 end.
Definition main_holds (pc : mpc) : nat :=
  match pc with MConnLoad _ | MConnStore _ _ | MDispatch _ => 1 | _ => 0 end.
Definition collector_holds (pc : cpc) : nat :=
  match pc with CTest _ | CConnLoad | CConnStore _ | CRelease => 1 | _ => 0 end.

(** Tasks in flight: admitted, not yet accounted for. *)
Definition in_flight (s : state) : nat :=
  main_holds (m_pc s) + sum_list_with holds_token (workers s)
  + length (callback s) + collector_holds (c_pc s).

(** Goroutines of [insert] that have not reported yet. *)
Definition outstanding (s : state) : nat :=
  sum_list_with holds_token (workers s).

Definition counted_conn (w : worker) : nat :=
  match w_pc w with WPrepare | WExec | WSub _ => 1 | _ => 0 end.
Definition has_sent (w : worker) : nat :=
  match w_pc w with WDeferred | WExited => 1 | _ => 0 end.
Definition alive (w : worker) : nat :=
  match w_pc w with WExited => 0 | _ => 1 end.
Definition past_exec (w : worker) : bool :=
  match w_pc w with WAdd | WPrepare | WExec => false | _ => true end.
Definition is_negative (x : Z) : nat := if x <? 0 then 1 else 0.
Definition pending_count (pc : cpc) : Z :=
  match pc with CRecv => 1 | _ => 0 end.
Definition under_test (pc : cpc) : nat :=
  match pc with CTest id => is_negative id | _ => 0 end.
Definition main_has_record (pc : mpc) : nat :=
  match pc with
  | MAcquire _ | MConnLoad _ | MConnStore _ _ | MDispatch _ => 1
  | _ => 0
  end.

(** Records that [main] has taken from standard input. *)
Definition rows_taken (s : state) : nat :=
  (if isFirstRow s then 0 else 1) + length (workers s)
  + main_has_record (m_pc s).

(** Data records of an input: all but the header. *)
Definition data_rows (stdin : list read_result) : nat := length (tail stdin).

Definition is_record (r : read_result) : Prop :=
  match r with Record_ _ => True | ReadError _ => False end.

(** Outcomes the collector has taken from [callback] so far. *)
Definition outcomes_taken (s : state) : Z :=
  Z.of_nat (sum_list_with has_sent (workers s)) - Z.of_nat (length (callback s)).

(** ** Counting steps of a run *)

Definition is_receive (a : actor) (s : state) : nat :=
  match a, c_pc s with Collector, CRecv => 1 | _, _ => 0 end.

Section Observations.

Variable v : variant.
Variable g : globals.
Variable db : database.

(** How often a kind of step is taken along a schedule run from [s]. *)
Fixpoint count_steps (kind : actor → state → nat) (sched : list actor)
    (s : state) : nat :=
  match sched with
  | [] => 0
  | a :: rest =>
    match step v g db a s with
    | Some s' => kind a s + count_steps kind rest s'
    | None => 0
    end
  end.

(** What the goroutine sends on [callback]. *)
Definition outcome (w : worker) : Z :=
  match db_exec db (w_id w) (w_query w) (w_args w) with
  | Some _ => Int.neg (w_id w)
  | None => w_id w
  end.

Definition reported_failure (w : worker) : nat :=
  (is_negative (outcome w) * has_sent w)%nat.

Definition out_ok (w : worker) : Prop :=
  match w_pc w with WSub o | WSend o => o = outcome w | _ => True end.

Definition logged (s : state) (w : worker) : Prop :=
  past_exec w = true →
  ∀ err, db_exec db (w_id w) (w_query w) (w_args w) = Some err →
  ∃ c, LogInsertError (w_id w) c err ∈ st_log s.

(** ** Invariants of the reachable states *)

Definition tokens_ok (s : state) : Prop :=
  (length (available s) + in_flight s)%nat = Z.to_nat (MAX_SQL_CONNECTIONS g)
  ∧ Forall (λ b, b = true) (available s).

Definition shape_ok (s : state) : Prop :=
  v = Upsert →
  match m_pc s with MConnLoad _ | MConnStore _ _ => False | _ => True end ∧
  match c_pc s with CConnLoad | CConnStore _ => False | _ => True end.

Definition conn_ok (s : state) : Prop :=
  v = Upsert →
  connections s = Int.wrap (Z.of_nat (sum_list_with counted_conn (workers s))).

Definition wg_ok (s : state) : Prop :=
  wg s = sum_list_with alive (workers s).

Definition ins_ok (s : state) : Prop :=
  insertions s = Int.wrap (outcomes_taken s + pending_count (c_pc s)).

Definition outs_ok (s : state) : Prop := Forall out_ok (workers s).

Definition fails_ok (s : state) : Prop :=
  (sum_list_with is_negative (callback s) + under_test (c_pc s)
   ≤ sum_list_with reported_failure (workers s))%nat ∧
  fails s =
  Int.wrap (Z.of_nat (sum_list_with reported_failure (workers s))
            - Z.of_nat (sum_list_with is_negative (callback s))
            - Z.of_nat (under_test (c_pc s))).

Definition ids_ok (s : state) : Prop :=
  id s = Int.wrap (id_init v + Z.of_nat (length (workers s))) ∧
  ∀ k w, workers s !! k = Some w →
    w_id w = Int.wrap (id_init v + Z.of_nat k + 1).

Definition input_ok (stdin : list read_result) (s : state) : Prop :=
  (∃ taken, stdin = map Record_ taken ++ unread s ∧ length taken = rows_taken s)
  ∧ (isFirstRow s = true →
     length (workers s) = 0%nat ∧ main_has_record (m_pc s) = 0%nat).

Definition loop_done (s : state) : Prop :=
  match m_pc s with
  | MWait => unread s = []
  | MDrain => unread s = [] ∧ wg s = 0%nat
  | MReport => unread s = [] ∧ wg s = 0%nat ∧ callback s = []
  | _ => True
  end.

Definition report_ok (s : state) : Prop :=
  (∀ i f, LogReport i f ∈ st_log s →
     st_exit s = Some Returned ∧ i = insertions s
     ∧ f = Int.sub (insertions s) (fails s))
  ∧ (st_exit s = Some Returned → m_pc s = MReport).

Definition logs_ok (s : state) : Prop := Forall (logged s) (workers s).

(** How a run may end when neither the input nor [db.Prepare] fails. *)
Definition exit_ok (stdin : list read_result) (s : state) : Prop :=
  match st_exit s with
  | None | Some Returned => True
  | Some (Fatal msg) =>
    ReadError msg ∈ stdin ∨ ∃ id q, db_prepare db id q = Some msg
  | Some (Panicked _) => False
  end.

Record invariant (stdin : list read_result) (s : state) : Prop := Invariant {
  inv_tokens : tokens_ok s;
  inv_shape : shape_ok s;
  inv_conn : conn_ok s;
  inv_wg : wg_ok s;
  inv_ins : ins_ok s;
  inv_outs : outs_ok s;
  inv_fails : fails_ok s;
  inv_ids : ids_ok s;
  inv_input : input_ok stdin s;
  inv_loop : loop_done s;
  inv_report : report_ok s;
  inv_logs : logs_ok s;
  inv_exit : exit_ok stdin s
}.

End Observations.

(* ===================================================================== *)
(** * Scenarios *)
(* ===================================================================== *)

Definition demo_globals (conns : Z) : globals :=
  Globals "t" "" 9 conns "" false.

Definition db_fine : database :=
  Database None None (λ _ _, None) (λ _ _ _, None).

(** Every [stmt.Exec] fails, e.g. on a duplicate key. *)
Definition db_exec_fails : database :=
  Database None None (λ _ _, None)
           (λ _ _ _, Some "Error 1062: Duplicate entry").


Definition header : read_result := Record_ ["id"; "name"].

Definition stdin_header_only : list read_result := [header].

Definition stdin_one_row : list read_result :=
  [header; Record_ ["1"; "Alice"]].

Definition stdin_two_rows : list read_result :=
  [header; Record_ ["1"; "Alice"]; Record_ ["2"; "NULL"]].

Definition stdin_three_rows : list read_result :=
  [header; Record_ ["1"; "Alice"]; Record_ ["2"; "Bob"]; Record_ ["3"; "Eve"]].

(** Two valid lines, then a line with the wrong number of fields. *)
Definition stdin_malformed : list read_result :=
  [header; Record_ ["1"; "Alice"]; Record_ ["2"; "Bob"];
   ReadError "record on line 4: wrong number of fields"].

(** The collector starts, [main] reads the header, meets the end of the
    input, passes [wg.Wait()] and the drain loop, and reports. *)
Definition sched_header_only : list actor :=
  [Collector; Main; Main; Main; Main; Main].

(** One row through [Upsert]: dispatched, run to its send; the collector
    counts, receives and tests; the goroutine ends; [main] reports. *)
Definition sched_one_row_upsert : list actor :=
  [Main; Main; Main; Main;
   Insert 0; Insert 0; Insert 0; Insert 0; Insert 0;
   Collector; Collector; Collector;
   Insert 0;
   Main; Main; Main; Main].

(** [Base] with two tokens: [main] loads [connections] for the second
    task, the first task completes and the collector decrements, then
    [main] stores its stale value plus one. *)
Definition sched_lost_update : list actor :=
  [Main; Main; Main; Main; Main; Main;        (* header; row 1 dispatched *)
   Main; Main; Main;                          (* row 2: acquired, loaded 1 *)
   Insert 0; Insert 0; Insert 0;              (* task 1 sends its outcome *)
   Collector; Collector; Collector;           (* counted, received, tested *)
   Collector; Collector; Collector;           (* connections = 0, released *)
   Main; Main;                                (* stale store: 2; dispatched *)
   Main; Main; Main; Main].                   (* row 3: connections = 3 *)


(** Reads up to the malformed line with one token in use at a time. *)
Definition sched_malformed : list actor :=
  [Main; Main; Main; Main;
   Insert 0; Insert 0; Insert 0; Insert 0; Insert 0; Insert 0;
   Collector; Collector; Collector; Collector;
   Main; Main; Main;
   Main].

(** The state a schedule leads to from the start, if it can be run. *)
Definition run_from_start (v : variant) (g : globals) (db : database)
    (stdin : list read_result) (sched : list actor) : option state :=
  match main_init v g db stdin with
  | inl s0 => run v g db sched s0
  | inr _ => None
  end.

(* ===================================================================== *)
(** * Further vocabulary *)
(* ===================================================================== *)

(** The text an argument came from. *)
Definition unconvert (a : arg) : string :=
  match a with Nil => "NULL" | Str s => s end.

(** The record that [main] holds between [reader.Read()] and
    [go insert]. *)
Definition held (pc : mpc) : list (list string) :=
  match pc with
  | MAcquire r | MConnLoad r | MConnStore r _ | MDispatch r => [r]
  | _ => []
  end.

(** What [insert] is called with, besides the id. *)
Definition task_of (w : worker) : string * list arg := (w_query w, w_args w).

Definition is_status (l : log_line) : bool :=
  match l with LogStatus _ _ _ => true | _ => false end.


Definition not_logger (a : actor) : bool :=
  match a with Logger => false | _ => true end.

(** The state without the lines of [startLogger]. *)
Definition without_status (s : state) : state :=
  State (st_exit s) (filter (λ l, is_status l = false) (st_log s)) (m_pc s)
    (unread s) (query s) (id s) (isFirstRow s) (wg s) (callback s)
    (available s) (connections s) (insertions s) (fails s) (c_pc s)
    (workers s).

(** Tasks whose [stmt.Exec] failed and that have sent their outcome. *)
Definition failed_sent (db : database) (w : worker) : nat :=
  match db_exec db (w_id w) (w_query w) (w_args w) with
  | Some _ => has_sent w
  | None => 0
  end.

(** The records before the header has been read, and after. *)
Definition dispatch_ok (v : variant) (g : globals)
    (stdin : list read_result) (s : state) : Prop :=
  ∃ taken : list (list string),
    stdin = map Record_ taken ++ unread s ∧
    match taken with
    | [] => isFirstRow s = true
    | h :: rows =>
      isFirstRow s = false ∧ query s = parseColumns v g h ∧
      map task_of (workers s)
        ++ map (λ r, (query s, repalceNULLByDEFAULT r)) (held (m_pc s))
      = map (λ r, (parseColumns v g h, repalceNULLByDEFAULT r)) rows
    end.

(** Some goroutine other than the logger can take a step. *)
Definition can_progress (v : variant) (g : globals) (db : database)
    (s : state) : Prop :=
  ∃ a, not_logger a = true ∧ is_Some (step v g db a s).

(** One row through [Base], to the report, the collector having finished
    with the outcome. *)
Definition sched_one_row_base : list actor :=
  [Main; Main; Main; Main; Main; Main;
   Insert 0; Insert 0; Insert 0;
   Collector; Collector; Collector; Collector; Collector; Collector;
   Insert 0;
   Main; Main; Main; Main].


(** What [connections] of [Base] is meant to count: the tasks from the
    increment in [main] to the decrement in the collector. *)
Definition counted_base (s : state) : nat :=
  sum_list_with holds_token (workers s) + length (callback s)
  + match m_pc s with MDispatch _ => 1 | _ => 0 end
  + match c_pc s with CTest _ | CConnLoad | CConnStore _ => 1 | _ => 0 end.

(** With one token, the values that [main] and the collector have loaded
    for their update of [connections], and the program points of [insert]
    in [Base]. *)
Definition single_token_ok (s : state) : Prop :=
  connections s = Z.of_nat (counted_base s)
  ∧ match m_pc s with MConnStore _ c => c = 0 | _ => True end
  ∧ match c_pc s with CConnStore c => c = 1 | _ => True end
  ∧ Forall (λ w, match w_pc w with WAdd | WSub _ => False | _ => True end)
           (workers s).

(** A step of [insert] that sends on [callback]. *)
Definition is_send (a : actor) (s : state) : nat :=
  match a with
  | Insert k =>
    match workers s !! k with
    | Some w => match w_pc w with WSend _ => 1 | _ => 0 end
    | None => 0
    end
  | _ => 0
  end.

(* ===================================================================== *)
(** * Basic facts *)
(* ===================================================================== *)

Lemma wrap_add_l a b : Int.add (Int.wrap a) b = Int.wrap (a + b).
Proof.
  unfold Int.add, Int.wrap.
  replace ((a + 2 ^ 63) mod 2 ^ 64 - 2 ^ 63 + b + 2 ^ 63)
    with ((a + 2 ^ 63) mod 2 ^ 64 + b) by lia.
  rewrite Zplus_mod_idemp_l. f_equal. f_equal. lia.
Qed.

Lemma wrap_sub_l a b : Int.sub (Int.wrap a) b = Int.wrap (a - b).
Proof. unfold Int.sub. apply (wrap_add_l a (- b)). Qed.

Lemma wrap_small a : Int.min <= a <= Int.max → Int.wrap a = a.
Proof.
  unfold Int.min, Int.max, Int.wrap. intros H.
  rewrite Z.mod_small; lia.
Qed.

Lemma wrap_range a : Int.min <= Int.wrap a <= Int.max.
Proof.
  unfold Int.min, Int.max, Int.wrap.
  pose proof (Z.mod_pos_bound (a + 2 ^ 63) (2 ^ 64)). lia.
Qed.

Lemma neg_positive a : 0 < a <= Int.max → Int.neg a < 0.
Proof.
  unfold Int.neg, Int.max. intros H.
  rewrite wrap_small; [lia|]. unfold Int.min, Int.max. lia.
Qed.

Lemma neg_zero : Int.neg 0 = 0.
Proof. reflexivity. Qed.

Lemma sum_list_with_insert {A} (f : A → nat) (l : list A) k x y :
  l !! k = Some x →
  (sum_list_with f (<[k:=y]> l) + f x = sum_list_with f l + f y)%nat.
Proof.
  revert k. induction l as [|a l IH]; intros [|k] Hk; simplify_eq/=; [lia|].
  specialize (IH _ Hk). lia.
Qed.

Lemma sum_list_with_0 {A} (f : A → nat) (l : list A) k x :
  sum_list_with f l = 0%nat → l !! k = Some x → f x = 0%nat.
Proof.
  revert k. induction l as [|a l IH]; intros [|k] Hs Hk; simplify_eq/=; [lia|].
  apply (IH k); [lia|done].
Qed.

Lemma str_app_cons a s t : String a s +:+ t = String a (s +:+ t).
Proof. reflexivity. Qed.

Lemma str_app_nil_r s : s +:+ "" = s.
Proof. induction s as [|a s IH]; [done|]. by rewrite str_app_cons, IH. Qed.

Lemma str_app_assoc s t u : (s +:+ t) +:+ u = s +:+ (t +:+ u).
Proof. induction s as [|a s IH]; [done|]. by rewrite !str_app_cons, IH. Qed.

Lemma count_char_app c s t :
  count_char c (s +:+ t) = (count_char c s + count_char c t)%nat.
Proof.
  induction s as [|a s IH]; [done|].
  rewrite str_app_cons. simpl. rewrite IH. lia.
Qed.

(* ===================================================================== *)
(** * The argument list *)
(* ===================================================================== *)

Lemma repalceNULLByDEFAULT_loop_spec (pre : list arg) (s : list string) :
  repalceNULLByDEFAULT_loop (length pre) s (pre ++ replicate (length s) Nil)
  = pre ++ map convert_field s.
Proof.
  revert pre. induction s as [|x s IH]; intros pre; [done|].
  cbn [repalceNULLByDEFAULT_loop length replicate map].
  assert (Hins : ∀ a : arg,
    <[length pre := a]> (pre ++ Nil :: replicate (length s) Nil)
    = (pre ++ [a]) ++ replicate (length s) Nil).
  { intros a. rewrite insert_app_r_alt by lia.
    rewrite Nat.sub_diag. simpl. by rewrite <- app_assoc. }
  specialize (IH (pre ++ [convert_field x])).
  rewrite length_app in IH. simpl in IH.
  replace (length pre + 1)%nat with (S (length pre)) in IH by lia.
  rewrite <- (app_assoc pre [convert_field x] (map convert_field s)) in IH.
  simpl in IH. rewrite <- IH.
  unfold convert_field. destruct (String.eqb x "NULL"); by rewrite Hins.
Qed.

Lemma repalceNULLByDEFAULT_map (s : list string) :
  repalceNULLByDEFAULT s = map convert_field s.
Proof. apply (repalceNULLByDEFAULT_loop_spec [] s). Qed.

Lemma convert_field_decide (x : string) :
  convert_field x = if decide (x = "NULL") then Nil else Str x.
Proof.
  unfold convert_field. destruct (String.eqb_spec x "NULL"); by case_decide.
Qed.

(** C6.  The argument list has as many entries as the record has fields, in
    the same order; the entry of a field whose text is exactly [NULL] is
    [nil], the entry of any other field is its text unchanged (the empty
    string too). *)
Theorem repalceNULLByDEFAULT_fields (s : list string) :
  length (repalceNULLByDEFAULT s) = length s ∧
  ∀ k : nat,
    repalceNULLByDEFAULT s !! k
    = (λ x : string, if decide (x = "NULL") then Nil else Str x) <$> s !! k.
Proof.
  rewrite repalceNULLByDEFAULT_map. split; [apply length_map|].
  intros k. rewrite list_lookup_fmap.
  destruct (s !! k) as [x|]; [|done]. simpl. by rewrite convert_field_decide.
Qed.

Example repalceNULLByDEFAULT_sample :
  repalceNULLByDEFAULT ["2"; "NULL"; ""; "null"; "NULL "]
  = [Str "2"; Nil; Str ""; Str "null"; Str "NULL "].
Proof. reflexivity. Qed.

(* ===================================================================== *)
(** * The statement builder *)
(* ===================================================================== *)

Lemma join_map_cons (f : string → string) c l :
  join ", " (map f (c :: l)) = f c +:+ tail_text (λ x, ", " +:+ f x) l.
Proof.
  revert c. induction l as [|d l IH]; intros c; simpl.
  - by rewrite str_app_nil_r.
  - simpl in IH. rewrite IH. by rewrite str_app_assoc.
Qed.

Lemma join_cons c l :
  join ", " (c :: l) = c +:+ tail_text (λ x, ", " +:+ x) l.
Proof. rewrite <- (join_map_cons (λ x, x)). by rewrite map_id. Qed.

Lemma placeholders_cons l (c : string) :
  placeholders (length (c :: l)) = "?" +:+ tail_text (λ _, ", ?") l.
Proof.
  unfold placeholders.
  replace (replicate (length (c :: l)) "?")
    with (map (λ _ : string, "?") (c :: l)).
  - apply (join_map_cons (λ _, "?")).
  - simpl. f_equal. induction l; simpl; congruence.
Qed.

Lemma base_loop_tail i l q p :
  BaseSrc.parseColumns_loop (S i) l (q, p) =
  (q +:+ tail_text (λ c, ", " +:+ c) l, p +:+ tail_text (λ _, ", ?") l).
Proof.
  revert i q p. induction l as [|c l IH]; intros i q p; simpl.
  - by rewrite !str_app_nil_r.
  - rewrite IH. by rewrite !str_app_assoc.
Qed.

Lemma upsert_loop_tail i l q p u :
  UpsertSrc.parseColumns_loop (S i) l (q, p, u) =
  (q +:+ tail_text (λ c, ", " +:+ c) l, p +:+ tail_text (λ _, ", ?") l,
   u +:+ tail_text (λ c, ", " +:+ assignment c) l).
Proof.
  revert i q p u. induction l as [|c l IH]; intros i q p u; simpl.
  - by rewrite !str_app_nil_r.
  - rewrite IH. unfold assignment. by rewrite !str_app_assoc.
Qed.

Lemma base_parseColumns_eq g columns :
  BaseSrc.parseColumns g columns = insert_statement (TABLENAME g) columns.
Proof.
  unfold BaseSrc.parseColumns, insert_statement.
  destruct columns as [|c l].
  - simpl. by rewrite !str_app_assoc.
  - cbn [BaseSrc.parseColumns_loop BaseSrc.parseColumns_body Nat.eqb].
    rewrite base_loop_tail, placeholders_cons, join_cons.
    by rewrite !str_app_assoc.
Qed.

Lemma upsert_parseColumns_eq g columns :
  UpsertSrc.parseColumns g columns =
  insert_statement (TABLENAME g) columns +:+
  (if ON_DUP_KEYS_UPDATE g then update_clause columns else "").
Proof.
  unfold UpsertSrc.parseColumns, insert_statement, update_clause.
  destruct columns as [|c l].
  - simpl. destruct (ON_DUP_KEYS_UPDATE g);
      by rewrite ?str_app_nil_r, !str_app_assoc.
  - cbn [UpsertSrc.parseColumns_loop UpsertSrc.parseColumns_body Nat.eqb].
    rewrite upsert_loop_tail, placeholders_cons, join_cons.
    rewrite (join_map_cons assignment).
    destruct (ON_DUP_KEYS_UPDATE g); rewrite ?str_app_nil_r;
      unfold assignment; by rewrite !str_app_assoc.
Qed.

Lemma tail_placeholders_count (l : list string) :
  count_char "?" (tail_text (λ _, ", ?") l) = length l.
Proof.
  induction l as [|x l IH]; [done|].
  simpl. rewrite count_char_app, IH. done.
Qed.

Lemma placeholders_count (n : nat) :
  count_char "?" (placeholders n) = n.
Proof.
  destruct n as [|n]; [done|].
  pose proof (placeholders_cons (replicate n "") "") as H.
  simpl in H. rewrite length_replicate in H. rewrite H.
  rewrite count_char_app, tail_placeholders_count, length_replicate. done.
Qed.

(** C7.  For every header the statement is the insertion statement that
    names the header's columns in order, with as many placeholders as there
    are columns, and with nothing after it when the upsert option is off;
    for the header (id, name, score) it is
    [INSERT INTO t (id, name, score) VALUES (?, ?, ?)]. *)
Theorem parseColumns_insert_statement (v : variant) (g : globals)
    (columns : list string) :
  (∃ clause : string,
     parseColumns v g columns
     = insert_statement (TABLENAME g) columns +:+ clause
     ∧ (upsert_enabled v g = false → clause = ""))
  ∧ insert_statement (TABLENAME g) columns
    = "INSERT INTO " +:+ TABLENAME g +:+ " (" +:+ join ", " columns
      +:+ ") VALUES (" +:+ placeholders (length columns) +:+ ")"
  ∧ count_char "?" (placeholders (length columns)) = length columns
  ∧ parseColumns v
      (Globals (TABLENAME g) (FILENAME g) (DELIMITER g)
               (MAX_SQL_CONNECTIONS g) (CONN_STR g) false)
      ["id"; "name"; "score"]
    = "INSERT INTO " +:+ TABLENAME g +:+ " (id, name, score) VALUES (?, ?, ?)".
Proof.
  split_and!.
  - destruct v; simpl.
    + exists "". by rewrite base_parseColumns_eq, str_app_nil_r.
    + eexists. split; [apply upsert_parseColumns_eq|]. by intros ->.
  - done.
  - apply placeholders_count.
  - destruct v; simpl.
    + by rewrite base_parseColumns_eq.
    + rewrite upsert_parseColumns_eq. simpl. by rewrite str_app_nil_r.
Qed.

Example parseColumns_three_columns :
  parseColumns Base (demo_globals 50) ["id"; "name"; "score"]
  = "INSERT INTO t (id, name, score) VALUES (?, ?, ?)"
  ∧ parseColumns Upsert (demo_globals 100) ["id"; "name"; "score"]
  = "INSERT INTO t (id, name, score) VALUES (?, ?, ?)".
Proof. split; reflexivity. Qed.

(** C8.  In [Upsert], with the option on the statement is the insertion
    statement followed by [ON DUPLICATE KEY UPDATE] and, for every header
    column [c] in order, the assignment [c=VALUES(c)]; with the option off
    it is the insertion statement alone. *)
Theorem parseColumns_update_clause (g : globals) (columns : list string) :
  UpsertSrc.parseColumns g columns
  = (if ON_DUP_KEYS_UPDATE g
     then insert_statement (TABLENAME g) columns +:+
          "ON DUPLICATE KEY UPDATE " +:+
          join ", " (map (λ c, c +:+ "=VALUES(" +:+ c +:+ ")") columns)
     else insert_statement (TABLENAME g) columns)
  ∧ length (map (λ c, c +:+ "=VALUES(" +:+ c +:+ ")") columns)
    = length columns.
Proof.
  split; [|apply length_map].
  rewrite upsert_parseColumns_eq.
  destruct (ON_DUP_KEYS_UPDATE g); [done|apply str_app_nil_r].
Qed.

Example parseColumns_three_columns_upsert :
  parseColumns Upsert (Globals "t" "" 9 100 "" true) ["id"; "name"; "score"]
  = "INSERT INTO t (id, name, score) VALUES (?, ?, ?)" +:+
    "ON DUPLICATE KEY UPDATE " +:+
    "id=VALUES(id), name=VALUES(name), score=VALUES(score)".
Proof. reflexivity. Qed.

(* ===================================================================== *)
(** * The delimiter option *)
(* ===================================================================== *)

Lemma runes_cons (a : ascii) (rest : string) :
  runes (String a rest)
  = (DecodeRuneInString (String a rest)).1
    :: runes_fuel (String.length rest)
         (drop_bytes (DecodeRuneInString (String a rest)).2 (String a rest)).
Proof.
  unfold runes.
  change (String.length (String a rest)) with (S (String.length rest)).
  cbn [runes_fuel].
  by destruct (DecodeRuneInString (String a rest)).
Qed.


Lemma decode_ascii (a : ascii) (rest : string) :
  byte_of a < 0x80 → DecodeRuneInString (String a rest) = (byte_of a, 1%nat).
Proof.
  intros H. cbn [DecodeRuneInString].
  destruct (byte_of a <? 0x80) eqn:E; [done|]. apply Z.ltb_ge in E. lia.
Qed.

Lemma parseSysArgs_with_d (v : variant) (cl : cmdline) (d : string) :
  parseSysArgs v (with_d d cl)
  = match head (runes d) with
    | None => inr index_panic
    | Some r =>
      inl {| TABLENAME := default "" (arg_table cl);
             FILENAME := "";
             DELIMITER := r;
             MAX_SQL_CONNECTIONS :=
               default (match v with Base => 50 | Upsert => 100 end)
                       (arg_conns cl);
             CONN_STR := default "" (arg_db cl);
             ON_DUP_KEYS_UPDATE :=
               match v with
               | Base => false
               | Upsert => default false (arg_enable_update cl)
               end |}
    end.
Proof.
  unfold parseSysArgs, with_d. cbn [arg_d arg_db arg_table arg_conns
    arg_enable_update default defaults TABLENAME FILENAME DELIMITER
    MAX_SQL_CONNECTIONS CONN_STR ON_DUP_KEYS_UPDATE].
  unfold Datatypes.id. by destruct (runes d).
Qed.

(** C10.  [parseSysArgs] keeps the first rune of the delimiter option and
    nothing else of it: two values with the same first rune give the same
    configuration, and for a value that starts with an ASCII character the
    delimiter is that character whatever follows.  With the empty string
    there is no first rune: indexing panics, and the program ends there,
    before standard input is touched, whatever the input and the database
    are. *)
Theorem parseSysArgs_delimiter (v : variant) (cl : cmdline) :
  (∀ (db : database) (stdin : list read_result),
     parseSysArgs v (with_d "" cl) = inr index_panic
     ∧ program_start v (with_d "" cl) db stdin = inr index_panic)
  ∧ (∀ (a : ascii) (rest : string),
       ∃ g, parseSysArgs v (with_d (String a rest) cl) = inl g
            ∧ DELIMITER g = (DecodeRuneInString (String a rest)).1
            ∧ head (runes (String a rest)) = Some (DELIMITER g))
  ∧ (∀ d d' : string,
       head (runes d) = head (runes d') →
       parseSysArgs v (with_d d cl) = parseSysArgs v (with_d d' cl))
  ∧ (∀ (a : ascii) (rest : string),
       byte_of a < 0x80 →
       ∃ g, parseSysArgs v (with_d (String a rest) cl) = inl g
            ∧ DELIMITER g = byte_of a).
Proof.
  split_and!.
  - intros db stdin. unfold program_start.
    rewrite parseSysArgs_with_d. done.
  - intros a rest. rewrite parseSysArgs_with_d, runes_cons.
    eexists. split; [done|]. done.
  - intros d d' H. by rewrite !parseSysArgs_with_d, H.
  - intros a rest H. rewrite parseSysArgs_with_d, runes_cons.
    rewrite (decode_ascii a rest H). eexists. split; done.
Qed.

Example parseSysArgs_samples :
  (∃ g, parseSysArgs Upsert (with_d ",;" no_args) = inl g ∧ DELIMITER g = 44)
  ∧ (∃ g, parseSysArgs Base no_args = inl g ∧ DELIMITER g = 9)
  ∧ parseSysArgs Base (with_d "" no_args) = inr index_panic
  ∧ exit_status index_panic = 2.
Proof. split_and!; try (eexists; split; reflexivity); reflexivity. Qed.

(* ===================================================================== *)
(** * Invariants of the pipeline *)
(* ===================================================================== *)

(** Case analysis of one step: every way [step a s = Some s'] can hold. *)
Ltac step_cases H :=
  unfold step in H;
  repeat match type of H with
  | match ?x with _ => _ end = Some _ => destruct x eqn:?; simplify_eq/=
  | context [main_step] => unfold main_step in H
  | context [collector_step] => unfold collector_step in H
  | context [insert_step] => unfold insert_step in H
  | context [logger_step] => unfold logger_step in H
  | (if ?x then _ else _) = Some _ => destruct x eqn:?; simplify_eq/=
  | Some _ = Some _ => simplify_eq/=
  | None = Some _ => discriminate
  | (let _ := _ in _) = Some _ => cbv zeta in H
  end.

Ltac split_goal_cases :=
  repeat match goal with
  | |- context [if ?x then _ else _] => destruct x eqn:?
  | |- context [match ?x with Base => _ | Upsert => _ end] => destruct x eqn:?
  end.

Ltac use_pcs :=
  repeat match goal with
  | H : w_pc ?w = _ |- _ => rewrite H in *; clear H
  | H : m_pc ?s = _ |- _ => rewrite H in *; clear H
  | H : c_pc ?s = _ |- _ => rewrite H in *; clear H
  | H : callback ?s = _ |- _ => rewrite H in *; clear H
  | H : available ?s = _ |- _ => rewrite H in *; clear H
  | H : unread ?s = _ |- _ => rewrite H in *; clear H
  | H : wg ?s = _ |- _ => rewrite H in *; clear H
  | H : isFirstRow ?s = _ |- _ => rewrite H in *; clear H
  end.

Ltac prep H :=
  step_cases H; split_goal_cases; simpl in *; use_pcs; simpl in *;
  rewrite ?length_app, ?sum_list_with_app in *; simpl in *.

(** Names the sums over the worker list, with the effect of the step's
    update of one worker as an equation. *)
Ltac sum_facts :=
  repeat match goal with
  | Hw : ?l !! ?k = Some ?x |- context [sum_list_with ?f (<[?k := ?y]> ?l)] =>
    let Hs := fresh "Hsum" in
    pose proof (sum_list_with_insert f l k x y Hw) as Hs;
    let S1 := fresh "S" in
    set (S1 := sum_list_with f (<[k := y]> l)) in *; clearbody S1
  end;
  repeat match goal with
  | H : context [sum_list_with ?f ?l] |- _ =>
    let S0 := fresh "T" in
    set (S0 := sum_list_with f l) in *; clearbody S0
  | |- context [sum_list_with ?f ?l] =>
    let S0 := fresh "T" in
    set (S0 := sum_list_with f l) in *; clearbody S0
  end.

Section Invariants.

Variable v : variant.
Variable g : globals.
Variable db : database.

Lemma tokens_ok_step a s s' :
  step v g db a s = Some s' → tokens_ok g s → tokens_ok g s'.
Proof.
  intros H [Htok Htrue]. unfold tokens_ok, in_flight in *.
  prep H.
  all: sum_facts; unfold holds_token in *; simpl in *; use_pcs; simpl in *.
  all: try match goal with |- _ ∧ _ => split end.
  all: try lia.
  all: try done.
  all: try (by inversion Htrue).
  all: try (by apply Forall_app; split; [done|by constructor]).
  all: try (inversion Htrue; discriminate).
Qed.

Lemma shape_ok_step a s s' :
  step v g db a s = Some s' → shape_ok v s → shape_ok v s'.
Proof.
  intros H Hs Hv. specialize (Hs Hv). subst v.
  prep H; try done; try tauto.
Qed.

Lemma conn_ok_step a s s' :
  step v g db a s = Some s' → shape_ok v s → conn_ok v s → conn_ok v s'.
Proof.
  intros H Hs Hc Hv. specialize (Hs Hv). specialize (Hc Hv). subst v.
  prep H; try done; try tauto.
  all: sum_facts; unfold counted_conn in *; simpl in *; use_pcs; simpl in *.
  all: try (rewrite Hc, wrap_add_l; f_equal; lia).
  all: try (rewrite Hc; f_equal; lia).
Qed.

Lemma wg_ok_step a s s' :
  step v g db a s = Some s' → wg_ok s → wg_ok s'.
Proof.
  intros H Hw. unfold wg_ok in *.
  prep H; try done.
  all: sum_facts; unfold alive in *; simpl in *; use_pcs; simpl in *; try lia.
Qed.

Lemma ins_ok_step a s s' :
  step v g db a s = Some s' → ins_ok s → ins_ok s'.
Proof.
  intros H Hi. unfold ins_ok, outcomes_taken in *.
  prep H; try done.
  all: sum_facts; unfold has_sent in *; simpl in *; use_pcs; simpl in *.
  all: try (rewrite Hi, ?wrap_add_l; f_equal; lia).
Qed.

Lemma outs_ok_step a s s' :
  step v g db a s = Some s' → outs_ok db s → outs_ok db s'.
Proof.
  intros H Ho. unfold outs_ok in *.
  prep H; try done.
  all: try (apply Forall_app; split; [done|]; constructor; [done|constructor]).
  all: apply Forall_insert; [done|].
  all: unfold out_ok, outcome; simpl; try done.
  all: try (by match goal with H : db_exec _ _ _ _ = _ |- _ => rewrite H end).
  all: eapply Forall_lookup_1 in Ho; [|done]; unfold out_ok in Ho; use_pcs; done.
Qed.

Lemma outcome_set_w_pc pc w : outcome db (set_w_pc pc w) = outcome db w.
Proof. reflexivity. Qed.

Lemma fails_ok_step a s s' :
  step v g db a s = Some s' → outs_ok db s → fails_ok db s → fails_ok db s'.
Proof.
  intros H Ho [Hle Hf]. unfold fails_ok, outs_ok in *.
  prep H; try done.
  all: try match goal with
       | Hw : workers _ !! _ = Some ?w |- _ =>
         let Hx := fresh in
         pose proof (Forall_lookup_1 _ _ _ _ Ho Hw) as Hx;
         unfold out_ok in Hx
       end.
  all: sum_facts; unfold reported_failure, has_sent, under_test, is_negative in *;
       simpl in *; use_pcs; simpl in *.
  all: rewrite ?outcome_set_w_pc, ?Nat.mul_0_r, ?Nat.mul_1_r, ?Nat.add_0_r in *.
  all: repeat match goal with
       | H : (_ <? 0) = _ |- _ => rewrite H in *
       end; simpl in *.
  all: try (split; [lia|]; rewrite Hf, ?wrap_add_l; f_equal; lia).
  all: subst; destruct (outcome db _ <? 0);
       (split; [lia|]; rewrite Hf; f_equal; lia).
Qed.

Lemma ids_ok_step a s s' :
  step v g db a s = Some s' → ids_ok v s → ids_ok v s'.
Proof.
  intros H [Hid Hw]. unfold ids_ok in *.
  prep H; try done.
  all: split; [by rewrite ?length_insert, ?Hid, ?wrap_add_l; f_equal; lia|].
  all: intros k0 w0 Hk0.
  all: try (apply lookup_app_Some in Hk0 as [Hk0|[Hlen Hk0]]; [by apply Hw|];
            apply list_lookup_singleton_Some in Hk0 as [Hk0 <-]; simpl;
            rewrite Hid, wrap_add_l; f_equal; lia).
  all: apply list_lookup_insert_Some in Hk0 as [(-> & <- & ?)|[? Hk0]];
       [simpl; by apply Hw | by apply Hw].
Qed.

Lemma input_ok_step stdin a s s' :
  step v g db a s = Some s' → tokens_ok g s →
  input_ok stdin s → input_ok stdin s'.
Proof.
  intros H [_ Htrue] [(taken & Hin & Hlen) Hfirst].
  unfold input_ok, rows_taken in *.
  prep H; try done.
  all: rewrite ?length_insert.
  all: try (inversion Htrue; discriminate).
  all: try (pose proof (Hfirst eq_refl) as [? ?]; simpl in *; try lia).
  all: (split; [|intros; try discriminate; split; simpl in *; lia]).
  all: try (exists taken; split; [done | simpl in *; lia]).
  all: match goal with
       | |- ∃ _, _ ++ Record_ ?f :: _ = _ ∧ _ => exists (taken ++ [f])
       end.
  all: rewrite map_app, <- app_assoc, length_app; split; [done | simpl; lia].
Qed.

Lemma loop_done_step a s s' :
  step v g db a s = Some s' → wg_ok s → loop_done s → loop_done s'.
Proof.
  intros H Hwg Hl. unfold loop_done, wg_ok in *.
  step_cases H; split_goal_cases; simpl in *; try done.
  all: try (destruct (m_pc s); try done; destruct_and?; split_and?; try done; lia).
  - by match goal with H : m_pc _ = MDrain |- _ => rewrite H end.
  - destruct (m_pc s); try done. destruct Hl as (? & Hz & ?).
    rewrite Hz in Hwg. symmetry in Hwg.
    eapply sum_list_with_0 in Hwg; [|done].
    unfold alive in Hwg.
    by match goal with H : w_pc _ = WSend _ |- _ => rewrite H in Hwg end.
Qed.

Lemma report_ok_step a s s' :
  step v g db a s = Some s' → report_ok s → report_ok s'.
Proof.
  intros H [Hr He]. unfold report_ok in *.
  assert (Hx : st_exit s = None).
  { unfold step in H. by destruct (st_exit s). }
  assert (Hno : ∀ i f, LogReport i f ∉ st_log s).
  { intros i f Hin. apply Hr in Hin as [? _]. congruence. }
  step_cases H; split_goal_cases; simpl in *.
  all: split; [|try congruence; try done].
  all: try (intros i f Hin; by apply Hno in Hin).
  all: intros i f Hin; apply elem_of_app in Hin as [Hin|Hin];
       [by apply Hno in Hin|].
  all: apply list_elem_of_singleton in Hin; simplify_eq; try done.
Qed.

Lemma logged_mono s s' w :
  (∀ l, l ∈ st_log s → l ∈ st_log s') → logged db s w → logged db s' w.
Proof.
  intros Hsub Hl Hp err He. destruct (Hl Hp err He) as [c Hc].
  exists c. by apply Hsub.
Qed.

Lemma logs_ok_step a s s' :
  step v g db a s = Some s' → logs_ok db s → logs_ok db s'.
Proof.
  intros H Hl. unfold logs_ok in *.
  assert (Hsub : ∀ l, l ∈ st_log s → l ∈ st_log s').
  { step_cases H; split_goal_cases; simpl; try done.
    all: intros l Hin; apply elem_of_app; by left. }
  assert (Hold : Forall (logged db s') (workers s)).
  { eapply Forall_impl; [exact Hl|]. intros w. by apply logged_mono. }
  clear Hl.
  step_cases H; split_goal_cases; simpl in *; try done.
  all: try (apply Forall_app; split; [done|]; constructor; [|constructor];
            intros Hp; discriminate).
  all: apply Forall_insert; [done|].
  all: try (intros Hp; discriminate).
  all: try (intros _ err He; simpl in *; simplify_eq;
            eexists; apply elem_of_app; right; by apply list_elem_of_singleton).
  all: try (intros _ err He; simpl in *; congruence).
  all: eapply Forall_lookup_1 in Hold; [|done].
  all: intros _ err He; apply Hold; [|done].
  all: unfold past_exec;
       by match goal with H : w_pc _ = _ |- _ => rewrite H end.
Qed.

Lemma exit_ok_step stdin a s s' :
  step v g db a s = Some s' → wg_ok s → input_ok stdin s →
  exit_ok db stdin s → exit_ok db stdin s'.
Proof.
  intros H Hwg [(taken & Hin & _) _] He. unfold exit_ok, wg_ok in *.
  step_cases H; split_goal_cases; simpl in *; try done.
  all: try by match goal with H : st_exit _ = None |- _ => rewrite H end.
  - left. apply elem_of_app. right. by left.
  - right. eauto.
  - symmetry in Hwg. eapply sum_list_with_0 in Hwg; [|done].
    unfold alive in Hwg.
    by match goal with H : w_pc _ = WDeferred |- _ => rewrite H in Hwg end.
Qed.

Lemma invariant_step stdin a s s' :
  step v g db a s = Some s' →
  invariant v g db stdin s → invariant v g db stdin s'.
Proof.
  intros H [].
  split; eauto using tokens_ok_step, shape_ok_step, conn_ok_step, wg_ok_step,
    ins_ok_step, outs_ok_step, fails_ok_step, ids_ok_step, input_ok_step,
    loop_done_step, report_ok_step, logs_ok_step, exit_ok_step.
Qed.

Lemma invariant_init stdin s0 :
  main_init v g db stdin = inl s0 → invariant v g db stdin s0.
Proof.
  unfold main_init. intros H.
  destruct (db_open db); [done|]. destruct (db_ping db); [done|].
  destruct (MAX_SQL_CONNECTIONS g <? 0) eqn:E; [done|].
  simplify_eq. split.
  - split; simpl.
    + unfold in_flight. simpl. rewrite length_replicate. lia.
    + by apply Forall_replicate.
  - intros _. done.
  - intros _. done.
  - done.
  - done.
  - constructor.
  - split; [simpl; lia|done].
  - split; [|done]. simpl. rewrite Z.add_0_r.
    unfold id_init. by destruct v.
  - split; [by exists []|done].
  - done.
  - split; [|done]. intros i f Hin. by apply elem_of_nil in Hin.
  - constructor.
  - done.
Qed.

Lemma invariant_run stdin sched s s' :
  run v g db sched s = Some s' →
  invariant v g db stdin s → invariant v g db stdin s'.
Proof.
  revert s. induction sched as [|a sched IH]; intros s H Hinv; simpl in H.
  - by simplify_eq.
  - destruct (step v g db a s) as [s1|] eqn:Hs; [|done].
    eapply IH; [done|]. by eapply invariant_step.
Qed.

Theorem reachable_invariant stdin s :
  reachable v g db stdin s → invariant v g db stdin s.
Proof.
  intros (s0 & sched & H0 & Hrun).
  eapply invariant_run; [done|]. by apply invariant_init.
Qed.

Lemma reachable_conns_nonneg stdin s :
  reachable v g db stdin s → 0 <= MAX_SQL_CONNECTIONS g.
Proof.
  intros (s0 & sched & H0 & _). unfold main_init in H0.
  destruct (db_open db); [done|]. destruct (db_ping db); [done|].
  destruct (MAX_SQL_CONNECTIONS g <? 0) eqn:E; [done|]. lia.
Qed.

Lemma reachable_step stdin a s s' :
  reachable v g db stdin s → step v g db a s = Some s' →
  reachable v g db stdin s'.
Proof.
  intros (s0 & sched & H0 & Hrun) Hs.
  exists s0, (sched ++ [a]). split; [done|].
  clear H0. revert s0 Hrun.
  induction sched as [|b sched IH]; intros s0 Hrun; simpl in *.
  - simplify_eq. by rewrite Hs.
  - destruct (step v g db b s0); [|done]. by apply IH.
Qed.

End Invariants.

(* ===================================================================== *)
(** * Admission: tokens, tasks in flight, the connections counter *)
(* ===================================================================== *)

Lemma sum_list_with_le {A} (f h : A → nat) (l : list A) :
  (∀ x, f x ≤ h x)%nat → (sum_list_with f l ≤ sum_list_with h l)%nat.
Proof.
  intros Hle. induction l as [|x l IH]; simpl; [lia|].
  specialize (Hle x). lia.
Qed.

Lemma wrap_le_of_le (c n : Z) : 0 <= c <= n → Int.wrap c <= n.
Proof.
  intros H. destruct (decide (c <= Int.max)) as [Hc|Hc].
  - rewrite wrap_small; [lia|]. unfold Int.min, Int.max in *. lia.
  - pose proof (wrap_range c). lia.
Qed.

Section Admission.

Variable v : variant.
Variable g : globals.
Variable db : database.

(** The tasks in flight never exceed [MAX_SQL_CONNECTIONS], in both
    variants: every token is either in [available] or with a task. *)
Lemma in_flight_bound stdin s :
  reachable v g db stdin s →
  (length (available s) + in_flight s)%nat = Z.to_nat (MAX_SQL_CONNECTIONS g)
  ∧ Z.of_nat (in_flight s) <= MAX_SQL_CONNECTIONS g
  ∧ (outstanding s ≤ in_flight s)%nat.
Proof.
  intros Hr. pose proof (reachable_conns_nonneg _ _ _ _ _ Hr) as Hn.
  apply reachable_invariant in Hr. destruct Hr as [[Htok _]].
  split_and!; [done|lia|]. unfold outstanding, in_flight. lia.
Qed.

End Admission.

(** In [Upsert] the counter is updated atomically by the goroutines of
    [insert] only, and never exceeds [MAX_SQL_CONNECTIONS]. *)
Lemma upsert_connections_bound g db stdin s :
  reachable Upsert g db stdin s →
  connections s
  = Int.wrap (Z.of_nat (sum_list_with counted_conn (workers s)))
  ∧ connections s <= MAX_SQL_CONNECTIONS g.
Proof.
  intros Hr. destruct (in_flight_bound _ _ _ _ _ Hr) as (_ & Hle & Ho).
  apply reachable_invariant in Hr. destruct Hr as [_ _ Hc].
  specialize (Hc eq_refl). split; [done|]. rewrite Hc.
  apply wrap_le_of_le. split; [lia|].
  assert (sum_list_with counted_conn (workers s) ≤ outstanding s)%nat; [|lia].
  apply sum_list_with_le. intros w. unfold counted_conn, holds_token.
  destruct (w_pc w); lia.
Qed.

(** C2.  In [Base] the counter is a plain [int] that [main] increments and
    the collector decrements, each with a load and a store.  With two
    tokens and three data rows, [sched_lost_update] makes [main] store a
    stale value: the counter reads 3 while two tasks are in flight and the
    maximum is 2. *)
Theorem base_connections_lost_update :
  ∃ s, reachable Base (demo_globals 2) db_fine stdin_three_rows s
       ∧ MAX_SQL_CONNECTIONS (demo_globals 2) = 2
       ∧ in_flight s = 2%nat
       ∧ connections s = 3.
Proof.
  eexists. split.
  - eexists _, sched_lost_update. split; [reflexivity|]. vm_compute. reflexivity.
  - split_and!; reflexivity.
Qed.

(* ===================================================================== *)
(** * The final count *)
(* ===================================================================== *)

Lemma all_exited_sent (l : list worker) :
  sum_list_with alive l = 0%nat → sum_list_with has_sent l = length l.
Proof.
  induction l as [|w l IH]; simpl; [done|]. intros H.
  rewrite IH by lia. unfold alive, has_sent in *. destruct (w_pc w); simpl in *; lia.
Qed.

(** The count that the final report prints is the number of data rows,
    plus one whenever the collector has come back to its receive. *)
Lemma final_report_count v g db stdin s i f :
  reachable v g db stdin s → LogReport i f ∈ st_log s →
  i = Int.wrap (Z.of_nat (data_rows stdin) + pending_count (c_pc s))
  ∧ length (workers s) = data_rows stdin.
Proof.
  intros Hr Hin. apply reachable_invariant in Hr.
  destruct Hr as [_ _ _ Hwg Hins _ _ _ [(taken & Hstdin & Hlen) Hfirst] Hloop [Hrep Hret] _ _].
  destruct (Hrep _ _ Hin) as (Hexit & -> & _).
  specialize (Hret Hexit). unfold loop_done in Hloop. rewrite Hret in Hloop.
  destruct Hloop as (Hun & Hwg0 & Hcb).
  unfold wg_ok in Hwg. rewrite Hwg0 in Hwg. symmetry in Hwg.
  apply all_exited_sent in Hwg.
  assert (Hrows : length (workers s) = data_rows stdin).
  { unfold data_rows. rewrite Hstdin, Hun, app_nil_r.
    unfold rows_taken in Hlen. rewrite Hret in Hlen. simpl in Hlen.
    destruct taken as [|r taken]; simpl in *.
    - destruct (isFirstRow s); [|lia]. destruct (Hfirst eq_refl). lia.
    - rewrite length_map. destruct (isFirstRow s); [|lia].
      destruct (Hfirst eq_refl). lia. }
  split; [|done].
  rewrite Hins. unfold outcomes_taken. rewrite Hwg, Hcb, Hrows. simpl.
  f_equal. lia.
Qed.

(** C1.  The collector adds one to [insertions] before it receives an
    outcome.  On an input with a header and no data row, the collector
    runs first and [main] then reports one insertion where no task was
    dispatched; this holds in both variants. *)
Theorem final_report_counts_one_extra (v : variant) :
  ∃ s, reachable v (demo_globals 1) db_fine stdin_header_only s
       ∧ data_rows stdin_header_only = 0%nat
       ∧ workers s = []
       ∧ c_pc s = CRecv
       ∧ st_log s = [LogReport 1 1].
Proof.
  destruct v.
  all: eexists; split;
    [eexists _, sched_header_only; split; [reflexivity|vm_compute; reflexivity]|].
  all: split_and!; reflexivity.
Qed.

(* ===================================================================== *)
(** * The sign of the id as the outcome *)
(* ===================================================================== *)

(** Negation marks a failure for every positive id, and for no other. *)
Lemma failure_sign (i : Z) :
  (0 < i <= Int.max → is_negative (Int.neg i) = 1%nat ∧ is_negative i = 0%nat)
  ∧ is_negative (Int.neg 0) = 0%nat.
Proof.
  split; [|reflexivity]. intros H. unfold is_negative.
  pose proof (neg_positive i H).
  destruct (Int.neg i <? 0) eqn:E1; [|apply Z.ltb_ge in E1; lia].
  destruct (i <? 0) eqn:E2; [apply Z.ltb_lt in E2; lia|done].
Qed.

(** In [Upsert] the first task has id 0: whatever the schedule, its failure
    is never counted. *)
Lemma upsert_first_failure_never_counted g stdin_row s :
  reachable Upsert g db_exec_fails [header; Record_ stdin_row] s →
  fails s = 0.
Proof.
  intros Hr. apply reachable_invariant in Hr.
  destruct Hr as [_ _ _ _ _ _ [Hle Hf] [_ Hids] [(taken & Hstdin & Hlen) Hfirst] _ _ _ _].
  assert (Hw : (length (workers s) ≤ 1)%nat).
  { apply (f_equal length) in Hstdin.
    rewrite length_app, length_map, Hlen in Hstdin. unfold rows_taken in Hstdin.
    simpl in Hstdin. destruct (isFirstRow s).
    - destruct (Hfirst eq_refl). lia.
    - lia. }
  assert (Hz : sum_list_with (reported_failure db_exec_fails) (workers s) = 0%nat).
  { destruct (workers s) as [|w [|? ?]] eqn:Ews; simpl in *; [done| |lia].
    specialize (Hids 0%nat w eq_refl). simpl in Hids.
    unfold reported_failure, outcome. simpl. rewrite Hids. reflexivity. }
  rewrite Hf, Hz.
  replace (sum_list_with is_negative (callback s)) with 0%nat by lia.
  replace (under_test (c_pc s)) with 0%nat by lia.
  reflexivity.
Qed.

(** C3.  [Upsert] numbers the tasks from 0 ([id := -1], then [id++]), and
    the negation of 0 is 0, which the collector's test [id < 0] does not
    see.  One data row whose [Exec] fails: the failure is logged for row 0,
    the collector handles the outcome, and the report shows one insertion,
    one of them valid, with [fails] still 0. *)
Theorem upsert_failure_of_row_zero_not_counted :
  ∃ s, reachable Upsert (demo_globals 1) db_exec_fails stdin_one_row s
       ∧ (∃ w, workers s = [w] ∧ w_id w = 0
               ∧ outcome db_exec_fails w = 0
               ∧ is_Some (db_exec db_exec_fails (w_id w) (w_query w) (w_args w)))
       ∧ c_pc s = CRelease
       ∧ fails s = 0
       ∧ st_log s = [LogInsertError 0 None "Error 1062: Duplicate entry";
                     LogReport 1 1].
Proof.
  eexists. split.
  - eexists _, sched_one_row_upsert.
    split; [reflexivity|vm_compute; reflexivity].
  - split_and!; try reflexivity.
    eexists. split_and!; try reflexivity. by eexists.
Qed.

(* ===================================================================== *)
(** * Failures of the store *)
(* ===================================================================== *)

Lemma step_exited v g db a s e :
  st_exit s = Some e → step v g db a s = None.
Proof. intros H. unfold step. by rewrite H. Qed.



(* ===================================================================== *)
(** * Malformed records *)
(* ===================================================================== *)

(** C5.  If any record of the input is malformed, no report is ever
    printed and [main] never returns normally.  When [main] reads the
    malformed record the process ends at once with [log.Fatal] (status 1),
    whatever the other goroutines were doing, and nothing runs afterwards.
    At the end of the input [main] leaves the read loop for [wg.Wait()]
    and the process goes on. *)
Theorem malformed_record_is_fatal (v : variant) (g : globals) (db : database)
    (stdin : list read_result) (s : state) :
  reachable v g db stdin s →
  ((∃ msg, ReadError msg ∈ stdin) →
     (∀ i f, LogReport i f ∉ st_log s) ∧ st_exit s ≠ Some Returned)
  ∧ (∀ msg rest,
       st_exit s = None → m_pc s = MRead → unread s = ReadError msg :: rest →
       ∃ s', step v g db Main s = Some s'
             ∧ st_exit s' = Some (Fatal msg)
             ∧ exit_status (Fatal msg) ≠ 0
             ∧ st_log s' = st_log s
             ∧ ∀ a, step v g db a s' = None)
  ∧ (st_exit s = None → m_pc s = MRead → unread s = [] →
       ∃ s', step v g db Main s = Some s'
             ∧ st_exit s' = None ∧ m_pc s' = MWait ∧ st_log s' = st_log s).
Proof.
  intros Hr. apply reachable_invariant in Hr.
  destruct Hr as [_ _ _ _ _ _ _ _ [(taken & Hstdin & _) _] Hloop [Hrep Hret] _ _].
  split_and!.
  - intros [msg Hin].
    assert (Hnot : st_exit s ≠ Some Returned).
    { intros He. specialize (Hret He). unfold loop_done in Hloop.
      rewrite Hret in Hloop. destruct Hloop as (Hun & _).
      rewrite Hstdin, Hun, app_nil_r in Hin.
      apply list_elem_of_fmap in Hin as (? & ? & ?). done. }
    split; [|done]. intros i f Hlog. by apply Hrep in Hlog as [? _].
  - intros msg rest He Hpc Hun. unfold step, main_step.
    rewrite He, Hpc, Hun. eexists. split; [done|]. simpl.
    split_and!; done.
  - intros He Hpc Hun. unfold step, main_step. rewrite He, Hpc, Hun.
    eexists. split; [done|]. done.
Qed.

(* ===================================================================== *)
(** * Who returns a token, and when *)
(* ===================================================================== *)

Section Release.

Variable v : variant.
Variable g : globals.
Variable db : database.





End Release.

(* ===================================================================== *)
(** * The theorems at work on the scenarios *)
(* ===================================================================== *)


Lemma malformed_record_is_fatal_witness :
  ∃ s, reachable Upsert (demo_globals 1) db_fine stdin_malformed s
       ∧ st_exit s = Some (Fatal "record on line 4: wrong number of fields")
       ∧ (∀ i f, LogReport i f ∉ st_log s)
       ∧ st_exit s ≠ Some Returned.
Proof.
  eexists.
  match goal with |- ?R ∧ _ => assert (Hr : R) end.
  { eexists _, sched_malformed.
    split; [reflexivity|vm_compute; reflexivity]. }
  split; [exact Hr|]. split; [reflexivity|].
  apply (malformed_record_is_fatal _ _ _ _ _ Hr).
  eexists. unfold stdin_malformed. do 3 right. left.
Defined.


(* ===================================================================== *)
(** * More on the pure helpers *)
(* ===================================================================== *)

(** X1.  The conversion loses nothing: writing [NULL] for [nil] and the
    text for a string gives the record back.  So two different records
    never have the same argument list. *)
Theorem repalceNULLByDEFAULT_round_trip (s t : list string) :
  map unconvert (repalceNULLByDEFAULT s) = s
  ∧ (repalceNULLByDEFAULT s = repalceNULLByDEFAULT t → s = t).
Proof.
  assert (Hrt : ∀ l, map unconvert (repalceNULLByDEFAULT l) = l).
  { intros l. rewrite repalceNULLByDEFAULT_map, map_map.
    rewrite <- (map_id l) at 2. apply map_ext. intros x.
    rewrite convert_field_decide. by case_decide; subst. }
  split; [apply Hrt|].
  intros H. by rewrite <- (Hrt s), <- (Hrt t), H.
Qed.

(** X2.  No argument is ever the string [NULL]: a field with that text
    is always passed as [nil]; and an argument is [nil] only for such a
    field. *)
Theorem repalceNULLByDEFAULT_never_NULL_string (s : list string) (k : nat) :
  repalceNULLByDEFAULT s !! k ≠ Some (Str "NULL")
  ∧ (repalceNULLByDEFAULT s !! k = Some Nil ↔ s !! k = Some "NULL").
Proof.
  destruct (repalceNULLByDEFAULT_fields s) as [_ H]. rewrite H.
  destruct (s !! k) as [x|]; simpl; [|by split; [|split]].
  case_decide; subst; split; try done; try (split; congruence).
  by intros [= ->].
Qed.


(** X4.  With the upsert option off, [Upsert] builds the very statement
    that [Base] builds, for every table and header. *)
Theorem parseColumns_variants_agree (g : globals) (columns : list string) :
  parseColumns Upsert
    (Globals (TABLENAME g) (FILENAME g) (DELIMITER g)
             (MAX_SQL_CONNECTIONS g) (CONN_STR g) false)
    columns
  = parseColumns Base g columns.
Proof.
  simpl. rewrite base_parseColumns_eq, upsert_parseColumns_eq. simpl.
  apply str_app_nil_r.
Qed.



(* ===================================================================== *)
(** * More on the pipeline *)
(* ===================================================================== *)

Lemma run_app v g db sched1 sched2 s :
  run v g db (sched1 ++ sched2) s
  = match run v g db sched1 s with
    | Some s' => run v g db sched2 s'
    | None => None
    end.
Proof.
  revert s. induction sched1 as [|a l IH]; intros s; simpl; [done|].
  destruct (step v g db a s); [apply IH|done].
Qed.

(** Induction over the reachable states. *)
Lemma reachable_ind v g db stdin (P : state → Prop) :
  (∀ s0, main_init v g db stdin = inl s0 → P s0) →
  (∀ a s s', reachable v g db stdin s → P s →
             step v g db a s = Some s' → P s') →
  ∀ s, reachable v g db stdin s → P s.
Proof.
  intros Hinit Hstep s (s0 & sched & H0 & Hrun).
  revert s Hrun. induction sched as [|a sched IH] using rev_ind; intros s Hrun.
  - simpl in Hrun. simplify_eq. by apply Hinit.
  - rewrite run_app in Hrun.
    destruct (run v g db sched s0) as [s1|] eqn:Hs1; [|done].
    simpl in Hrun. destruct (step v g db a s1) as [s2|] eqn:Hs2; [|done].
    simplify_eq. eapply Hstep; [|by apply IH|done].
    by exists s0, sched.
Qed.

(** X6.  Tasks are numbered consecutively in the order of their dispatch:
    the k-th task (from 0) has id k + 2 in [Base] and k in [Upsert], as
    long as that fits an int; so two tasks never share an id. *)
Theorem task_ids_consecutive (v : variant) (g : globals) (db : database)
    (stdin : list read_result) (s : state) (k : nat) (w : worker) :
  reachable v g db stdin s → workers s !! k = Some w →
  Z.of_nat k + 2 <= Int.max →
  w_id w = match v with Base => Z.of_nat k + 2 | Upsert => Z.of_nat k end
  ∧ ∀ k' w', workers s !! k' = Some w' → Z.of_nat k' + 2 <= Int.max →
             w_id w' = w_id w → k' = k.
Proof.
  intros Hr Hk Hmax. apply reachable_invariant in Hr.
  destruct Hr as [_ _ _ _ _ _ _ [_ Hids] _ _ _ _ _].
  assert (Hid : ∀ j x, workers s !! j = Some x → Z.of_nat j + 2 <= Int.max →
            w_id x = match v with Base => Z.of_nat j + 2 | Upsert => Z.of_nat j end).
  { intros j x Hj Hjm. rewrite (Hids _ _ Hj).
    rewrite wrap_small; unfold id_init, Int.min, Int.max in *; destruct v; lia. }
  split; [by apply Hid|].
  intros k' w' Hk' Hm' Heq.
  rewrite (Hid _ _ Hk Hmax), (Hid _ _ Hk' Hm') in Heq. destruct v; lia.
Qed.

Lemma task_ids_consecutive_witness :
  ∃ s w, reachable Upsert (demo_globals 1) db_exec_fails stdin_one_row s
         ∧ workers s !! 0%nat = Some w ∧ w_id w = 0.
Proof.
  eexists _, _.
  match goal with |- ?R ∧ _ => assert (Hr : R) end.
  { eexists _, sched_one_row_upsert.
    split; [reflexivity|vm_compute; reflexivity]. }
  split; [exact Hr|].
  match goal with |- ?R ∧ _ => assert (Hk : R) by reflexivity end.
  split; [exact Hk|].
  refine (proj1 (task_ids_consecutive _ _ _ _ _ _ _ Hr Hk _)).
  vm_compute. discriminate.
Defined.

Lemma map_insert_same {A B} (f : A → B) (l : list A) k x y :
  l !! k = Some x → f y = f x → map f (<[k:=y]> l) = map f l.
Proof.
  revert k. induction l as [|a l IH]; intros [|k] Hk Hf; simplify_eq/=.
  - by rewrite Hf.
  - by rewrite IH.
Qed.

Lemma dispatch_ok_step v g db stdin a s s' :
  step v g db a s = Some s' → tokens_ok g s → input_ok stdin s →
  dispatch_ok v g stdin s → dispatch_ok v g stdin s'.
Proof.
  intros H [_ Htrue] [_ Hfirst] (taken & Hin & Hd). unfold dispatch_ok.
  step_cases H; split_goal_cases; simpl in *.
  all: try (inversion Htrue; discriminate).
  all: try (exists taken; split; [done|];
            destruct taken as [|h rows]; [done|];
            destruct Hd as (? & ? & Hm); split_and!; try done;
            use_pcs; simpl in *;
            rewrite ?map_app in *; simpl in *;
            rewrite <- ?(app_assoc _ [_] []) in *; simpl in *;
            try done;
            try (erewrite map_insert_same; [done|done|done])).
  all: try (destruct taken as [|h rows]; [|destruct Hd; congruence]).
  all: try (destruct taken as [|h rows]; [congruence|]).
  - exists taken. use_pcs. split; [done|]. by destruct taken.
  - exists [fields]. split; [done|]. split_and!; try done.
    destruct (Hfirst Hd) as [Hw _].
    destruct (workers s); [|done]. by use_pcs.
  - exists (h :: rows ++ [fields]). split.
    + simpl. by rewrite map_app, <- app_assoc.
    + destruct Hd as (? & Hq & Hm). use_pcs. simpl in *.
      split_and!; try done. rewrite map_app, <- Hm, app_nil_r. simpl.
      by rewrite Hq.
  - exists taken. use_pcs. split; [done|]. by destruct taken.
Qed.

Lemma dispatch_ok_reachable v g db stdin s :
  reachable v g db stdin s → dispatch_ok v g stdin s.
Proof.
  revert s. apply reachable_ind.
  - intros s0 H0. exists []. unfold main_init in H0.
    destruct (db_open db); [done|]. destruct (db_ping db); [done|].
    destruct (MAX_SQL_CONNECTIONS g <? 0); [done|]. by simplify_eq.
  - intros a s s' Hr Hd Hs. apply reachable_invariant in Hr.
    destruct Hr. by eapply dispatch_ok_step.
Qed.

(** X7.  The header is never inserted, and the data rows are dispatched
    in the order of the input, none skipped and none twice: the k-th task
    is called with the statement built from the header and with the
    argument list of the k-th data row. *)
Theorem rows_dispatched_in_order (v : variant) (g : globals) (db : database)
    (stdin : list read_result) (s : state) (k : nat) (w : worker) :
  reachable v g db stdin s → workers s !! k = Some w →
  ∃ h r, stdin !! 0%nat = Some (Record_ h)
         ∧ stdin !! (S k) = Some (Record_ r)
         ∧ w_query w = parseColumns v g h
         ∧ w_args w = repalceNULLByDEFAULT r.
Proof.
  intros Hr Hk. destruct (dispatch_ok_reachable _ _ _ _ _ Hr) as (taken & Hin & Hd).
  destruct taken as [|h rows].
  { apply reachable_invariant in Hr. destruct Hr as [_ _ _ _ _ _ _ _ [_ Hf] _ _ _ _].
    destruct (Hf Hd) as [Hw _]. apply lookup_lt_Some in Hk. lia. }
  destruct Hd as (_ & _ & Hm).
  assert (Hl : (map task_of (workers s)
                ++ map (λ r, (query s, repalceNULLByDEFAULT r)) (held (m_pc s)))
               !! k = Some (task_of w)).
  { apply lookup_app_l_Some. by rewrite list_lookup_fmap, Hk. }
  rewrite Hm in Hl. rewrite list_lookup_fmap in Hl.
  destruct (rows !! k) as [r|] eqn:Hrk; [|done]. simpl in Hl.
  unfold task_of in Hl. injection Hl as Hq Ha.
  exists h, r. subst stdin. simpl. split_and!; [done| |done|done].
  apply lookup_app_l_Some. by rewrite list_lookup_fmap, Hrk.
Qed.

Lemma rows_dispatched_in_order_witness :
  ∃ s w, reachable Upsert (demo_globals 1) db_exec_fails stdin_one_row s
         ∧ workers s !! 0%nat = Some w
         ∧ ∃ h r, stdin_one_row !! 0%nat = Some (Record_ h)
                  ∧ stdin_one_row !! 1%nat = Some (Record_ r)
                  ∧ w_query w = parseColumns Upsert (demo_globals 1) h
                  ∧ w_args w = repalceNULLByDEFAULT r.
Proof.
  eexists _, _.
  match goal with |- ?R ∧ _ => assert (Hr : R) end.
  { eexists _, sched_one_row_upsert.
    split; [reflexivity|vm_compute; reflexivity]. }
  split; [exact Hr|].
  match goal with |- ?R ∧ _ => assert (Hk : R) by reflexivity end.
  split; [exact Hk|].
  exact (rows_dispatched_in_order _ _ _ _ _ _ _ Hr Hk).
Defined.

Lemma sum_list_with_le_Forall {A} (f h : A → nat) (l : list A) :
  Forall (λ x, (f x ≤ h x)%nat) l →
  (sum_list_with f l ≤ sum_list_with h l)%nat.
Proof. induction 1; simpl; lia. Qed.

Lemma sum_list_with_eq_Forall {A} (f h : A → nat) (l : list A) :
  Forall (λ x, f x = h x) l → sum_list_with f l = sum_list_with h l.
Proof. induction 1; simpl; lia. Qed.

Lemma sum_list_with_bound {A} (f : A → nat) (l : list A) :
  (∀ x, (f x ≤ 1)%nat) → (sum_list_with f l ≤ length l)%nat.
Proof.
  intros H. induction l as [|x l IH]; simpl; [lia|]. specialize (H x). lia.
Qed.

Lemma all_exited (l : list worker) :
  sum_list_with alive l = 0%nat → Forall (λ w, w_pc w = WExited) l.
Proof.
  induction l as [|w l IH]; simpl; [constructor|]. intros H.
  constructor; [|apply IH; lia].
  unfold alive in H. destruct (w_pc w); simpl in H; try lia. done.
Qed.

(** X8.  The tokens in [available] and the tasks in flight add up to
    [MAX_SQL_CONNECTIONS] at every moment, in both variants; every value in
    the channel is [true], so [main] never drops a record at
    [else if <-available]: once a token is there, the step leads on to
    the dispatch of that very record. *)
Theorem tokens_conserved (v : variant) (g : globals) (db : database)
    (stdin : list read_result) (s : state) :
  reachable v g db stdin s →
  (length (available s) + in_flight s)%nat = Z.to_nat (MAX_SQL_CONNECTIONS g)
  ∧ Z.of_nat (in_flight s) <= MAX_SQL_CONNECTIONS g
  ∧ (∀ r s', m_pc s = MAcquire r → step v g db Main s = Some s' →
       held (m_pc s') = [r]
       ∧ length (available s') = pred (length (available s))).
Proof.
  intros Hr. pose proof (reachable_conns_nonneg _ _ _ _ _ Hr) as Hn.
  apply reachable_invariant in Hr. destruct Hr as [[Htok Htrue]].
  split_and!; [done|lia|].
  intros r s' Hpc Hs. unfold step in Hs. destruct (st_exit s); [done|].
  unfold main_step in Hs. rewrite Hpc in Hs.
  destruct (available s) as [|b rest]; [done|].
  inversion Htrue; subst. simpl in Hs. simplify_eq. by destruct v.
Qed.

Lemma tokens_conserved_witness :
  ∃ s, reachable Base (demo_globals 2) db_fine stdin_three_rows s
       ∧ (length (available s) + in_flight s)%nat = 2%nat.
Proof.
  eexists.
  match goal with |- ?R ∧ _ => assert (Hr : R) end.
  { eexists _, sched_lost_update.
    split; [reflexivity|vm_compute; reflexivity]. }
  split; [exact Hr|].
  exact (proj1 (tokens_conserved _ _ _ _ _ Hr)).
Defined.

(** X9.  In [Upsert], [connections] is exactly the number of goroutines
    of [insert] between their two [atomic.AddInt64] calls; it is never
    negative and never above [MAX_SQL_CONNECTIONS]. *)
Theorem upsert_connections_exact (g : globals) (db : database)
    (stdin : list read_result) (s : state) :
  reachable Upsert g db stdin s →
  MAX_SQL_CONNECTIONS g <= Int.max →
  connections s = Z.of_nat (sum_list_with counted_conn (workers s))
  ∧ 0 <= connections s <= MAX_SQL_CONNECTIONS g.
Proof.
  intros Hr Hmax.
  destruct (in_flight_bound _ _ _ _ _ Hr) as (_ & Hle & Ho).
  destruct (upsert_connections_bound _ _ _ _ Hr) as [Hc _].
  assert (sum_list_with counted_conn (workers s) ≤ outstanding s)%nat.
  { apply sum_list_with_le. intros w. unfold counted_conn, holds_token.
    destruct (w_pc w); lia. }
  rewrite Hc, wrap_small; [lia|]. unfold Int.min, Int.max in *. lia.
Qed.

Lemma upsert_connections_exact_witness :
  ∃ s, reachable Upsert (demo_globals 1) db_exec_fails stdin_one_row s
       ∧ 0 <= connections s <= 1.
Proof.
  eexists.
  match goal with |- ?R ∧ _ => assert (Hr : R) end.
  { eexists _, sched_one_row_upsert.
    split; [reflexivity|vm_compute; reflexivity]. }
  split; [exact Hr|].
  refine (proj2 (upsert_connections_exact _ _ _ _ Hr _)).
  vm_compute. discriminate.
Defined.

Lemma report_facts (v : variant) (g : globals)
    (db : database) (stdin : list read_result) (s : state) (i f : Z) :
  reachable v g db stdin s → LogReport i f ∈ st_log s →
  unread s = [] ∧ Forall is_record stdin
  ∧ length (workers s) = data_rows stdin
  ∧ Forall (λ w, w_pc w = WExited) (workers s)
  ∧ callback s = []
  ∧ st_exit s = Some Returned ∧ exit_status Returned = 0
  ∧ i = Int.wrap (Z.of_nat (data_rows stdin) + pending_count (c_pc s))
  ∧ f = Int.sub i (fails s).
Proof.
  intros Hr Hin.
  destruct (final_report_count _ _ _ _ _ _ _ Hr Hin) as [Hi Hrows].
  apply reachable_invariant in Hr.
  destruct Hr as [_ _ _ Hwg _ _ _ _ [(taken & Hstdin & _) _] Hloop [Hrep Hret] _ _].
  destruct (Hrep _ _ Hin) as (Hexit & Hii & Hf).
  specialize (Hret Hexit). unfold loop_done in Hloop. rewrite Hret in Hloop.
  destruct Hloop as (Hun & Hwg0 & Hcb).
  unfold wg_ok in Hwg. rewrite Hwg0 in Hwg. symmetry in Hwg.
  split_and!; try done.
  - rewrite Hstdin, Hun, app_nil_r. apply Forall_forall.
    intros x Hx. apply list_elem_of_In, in_map_iff in Hx as (? & <- & _). done.
  - by apply all_exited.
  - by rewrite Hf, Hii.
Qed.




Lemma workers_at_most_input v g db stdin s :
  reachable v g db stdin s → (length (workers s) < length stdin ∨ workers s = [])%nat.
Proof.
  intros Hr. apply reachable_invariant in Hr.
  destruct Hr as [_ _ _ _ _ _ _ _ [(taken & Hstdin & Hlen) Hfirst] _ _ _ _].
  apply (f_equal length) in Hstdin. rewrite length_app, length_map, Hlen in Hstdin.
  unfold rows_taken in Hstdin. destruct (isFirstRow s).
  - right. destruct (Hfirst eq_refl). by destruct (workers s).
  - left. lia.
Qed.

Lemma task_id_in_range v g db stdin s k w :
  reachable v g db stdin s → Z.of_nat (length stdin) < Int.max →
  workers s !! k = Some w →
  w_id w = id_init v + Z.of_nat k + 1 ∧ 0 <= w_id w <= Int.max
  ∧ (v = Base → 0 < w_id w).
Proof.
  intros Hr Hlen Hk.
  destruct (workers_at_most_input _ _ _ _ _ Hr) as [Hw|Hw];
    [|by rewrite Hw in Hk].
  apply lookup_lt_Some in Hk as Hlt.
  apply reachable_invariant in Hr.
  destruct Hr as [_ _ _ _ _ _ _ [_ Hids] _ _ _ _ _].
  rewrite (Hids _ _ Hk).
  rewrite wrap_small; unfold id_init, Int.min, Int.max in *; destruct v;
    split_and?; try done; lia.
Qed.

(** X11.  A task whose [Exec] succeeded is never counted as a failure:
    with fewer than 2^63 lines of input, [fails] is at least 0 and at most
    the number of tasks whose [Exec] failed and that have sent their
    outcome. *)
Theorem successes_never_counted_as_failures (v : variant) (g : globals)
    (db : database) (stdin : list read_result) (s : state) :
  reachable v g db stdin s → Z.of_nat (length stdin) < Int.max →
  0 <= fails s <= Z.of_nat (sum_list_with (failed_sent db) (workers s)).
Proof.
  intros Hr Hlen.
  assert (Hpt : Forall (λ w, (reported_failure db w ≤ failed_sent db w)%nat)
                       (workers s)).
  { apply Forall_lookup. intros k w Hk.
    destruct (task_id_in_range _ _ _ _ _ _ _ Hr Hlen Hk) as (_ & Hid & _).
    unfold reported_failure, failed_sent, outcome, is_negative.
    destruct (db_exec db (w_id w) (w_query w) (w_args w)).
    - destruct (_ <? 0); lia.
    - destruct (w_id w <? 0) eqn:E; [apply Z.ltb_lt in E|]; lia. }
  apply sum_list_with_le_Forall in Hpt.
  assert (Hfs : (sum_list_with (failed_sent db) (workers s) ≤ length (workers s))%nat).
  { apply sum_list_with_bound. intros w. unfold failed_sent, has_sent.
    destruct (db_exec _ _ _ _); [|lia]. destruct (w_pc w); lia. }
  destruct (workers_at_most_input _ _ _ _ _ Hr) as [Hw|Hw].
  2: { rewrite Hw in *. simpl in *.
       apply reachable_invariant in Hr. destruct Hr as [_ _ _ _ _ _ [Hle Hf]].
       rewrite Hw in *. simpl in *. rewrite Hf.
       replace (sum_list_with is_negative (callback s)) with 0%nat by lia.
       replace (under_test (c_pc s)) with 0%nat by lia. done. }
  apply reachable_invariant in Hr. destruct Hr as [_ _ _ _ _ _ [Hle Hf]].
  rewrite Hf, wrap_small; unfold Int.min, Int.max in *; lia.
Qed.

Lemma successes_never_counted_as_failures_witness :
  ∃ s, reachable Upsert (demo_globals 1) db_exec_fails stdin_one_row s
       ∧ 0 <= fails s <= 1.
Proof.
  eexists.
  match goal with |- ?R ∧ _ => assert (Hr : R) end.
  { eexists _, sched_one_row_upsert.
    split; [reflexivity|vm_compute; reflexivity]. }
  split; [exact Hr|].
  refine (successes_never_counted_as_failures _ _ _ _ _ Hr _).
  vm_compute. reflexivity.
Defined.

(** X12.  [Base] counts every failure: with fewer than 2^63 lines of
    input, [fails] is the number of tasks whose [Exec] failed and that
    have sent their outcome, less the failures still queued in [callback]
    and the one the collector is testing.  When the report is printed
    nothing is queued, so [fails] is the number of failed tasks, less one
    only if the collector has not finished with the last of them. *)
Theorem base_counts_every_failure (g : globals) (db : database)
    (stdin : list read_result) (s : state) :
  reachable Base g db stdin s → Z.of_nat (length stdin) < Int.max →
  fails s
  = Z.of_nat (sum_list_with (failed_sent db) (workers s))
    - Z.of_nat (sum_list_with is_negative (callback s))
    - Z.of_nat (under_test (c_pc s))
  ∧ (∀ i f, LogReport i f ∈ st_log s →
       fails s + Z.of_nat (under_test (c_pc s))
       = Z.of_nat (sum_list_with (failed_sent db) (workers s))).
Proof.
  intros Hr Hlen.
  assert (Hpt : Forall (λ w, reported_failure db w = failed_sent db w)
                       (workers s)).
  { apply Forall_lookup. intros k w Hk.
    destruct (task_id_in_range _ _ _ _ _ _ _ Hr Hlen Hk) as (_ & Hid & Hpos).
    specialize (Hpos eq_refl).
    unfold reported_failure, failed_sent, outcome, is_negative.
    destruct (db_exec db (w_id w) (w_query w) (w_args w)).
    - pose proof (neg_positive (w_id w)).
      destruct (Int.neg (w_id w) <? 0) eqn:E; [lia|].
      apply Z.ltb_ge in E. lia.
    - destruct (w_id w <? 0) eqn:E; [apply Z.ltb_lt in E|]; lia. }
  apply sum_list_with_eq_Forall in Hpt.
  assert (Hfs : (sum_list_with (failed_sent db) (workers s) ≤ length (workers s))%nat).
  { apply sum_list_with_bound. intros w. unfold failed_sent, has_sent.
    destruct (db_exec _ _ _ _); [|lia]. destruct (w_pc w); lia. }
  assert (Hlw : Z.of_nat (length (workers s)) < Int.max).
  { destruct (workers_at_most_input _ _ _ _ _ Hr) as [Hw|Hw]; [lia|].
    rewrite Hw. simpl. unfold Int.max. lia. }
  assert (Heq : fails s
    = Z.of_nat (sum_list_with (failed_sent db) (workers s))
      - Z.of_nat (sum_list_with is_negative (callback s))
      - Z.of_nat (under_test (c_pc s))).
  { pose proof Hr as Hr'. apply reachable_invariant in Hr'.
    destruct Hr' as [_ _ _ _ _ _ [Hle Hf]].
    rewrite Hf, Hpt in *. rewrite wrap_small; unfold Int.min, Int.max in *; lia. }
  split; [done|].
  intros i f Hin.
  destruct (report_facts _ _ _ _ _ _ _ Hr Hin)
    as (_ & _ & _ & _ & Hcb & _).
  rewrite Heq, Hcb. simpl. lia.
Qed.

Lemma base_counts_every_failure_witness :
  ∃ s, reachable Base (demo_globals 1) db_exec_fails stdin_one_row s
       ∧ fails s = 1.
Proof.
  eexists.
  match goal with |- ?R ∧ _ => assert (Hr : R) end.
  { eexists _, sched_one_row_base.
    split; [reflexivity|vm_compute; reflexivity]. }
  split; [exact Hr|].
  refine (eq_trans (proj1 (base_counts_every_failure _ _ _ _ Hr _)) _).
  - vm_compute. reflexivity.
  - vm_compute. reflexivity.
Defined.

(** X13.  The WaitGroup counter is the number of goroutines of [insert]
    that have not run their deferred [wg.Done()]; so past [wg.Wait()]
    every one of them has finished, and [wg.Done()] never finds the
    counter at zero: the deferred step of a goroutine is always enabled
    and leaves the process running. *)
Theorem waitgroup_counts_goroutines (v : variant) (g : globals)
    (db : database) (stdin : list read_result) (s : state) :
  reachable v g db stdin s →
  wg s = sum_list_with alive (workers s)
  ∧ (m_pc s = MDrain ∨ m_pc s = MReport →
     Forall (λ w, w_pc w = WExited) (workers s))
  ∧ (∀ k w, workers s !! k = Some w → w_pc w = WDeferred →
       st_exit s = None →
       ∃ s', step v g db (Insert k) s = Some s' ∧ st_exit s' = None
             ∧ wg s = S (wg s')).
Proof.
  intros Hr. apply reachable_invariant in Hr.
  destruct Hr as [_ _ _ Hwg _ _ _ _ _ Hloop _ _ _].
  unfold wg_ok in Hwg. split_and!; [done| |].
  - intros Hpc. apply all_exited. rewrite <- Hwg. unfold loop_done in Hloop.
    destruct Hpc as [Hpc|Hpc]; rewrite Hpc in Hloop; by destruct_and?.
  - intros k w Hk Hpc He. unfold step, insert_step. rewrite He, Hk, Hpc.
    destruct (wg s) as [|n] eqn:Hn.
    + symmetry in Hwg. eapply sum_list_with_0 in Hwg; [|done].
      unfold alive in Hwg. by rewrite Hpc in Hwg.
    + eexists. split; [done|]. done.
Qed.

Lemma waitgroup_counts_goroutines_witness :
  ∃ s, reachable Upsert (demo_globals 1) db_exec_fails stdin_one_row s
       ∧ wg s = sum_list_with alive (workers s).
Proof.
  eexists.
  match goal with |- ?R ∧ _ => assert (Hr : R) end.
  { eexists _, sched_one_row_upsert.
    split; [reflexivity|vm_compute; reflexivity]. }
  split; [exact Hr|].
  exact (proj1 (waitgroup_counts_goroutines _ _ _ _ _ Hr)).
Defined.

(** X14.  With at most 1024 connections the send on [callback] never
    blocks: the queue holds fewer outcomes than its capacity whenever a
    goroutine of [insert] is about to send. *)
Theorem callback_send_never_blocks (v : variant) (g : globals)
    (db : database) (stdin : list read_result) (s : state)
    (k : nat) (w : worker) (out : Z) :
  reachable v g db stdin s →
  MAX_SQL_CONNECTIONS g <= 1024 →
  workers s !! k = Some w → w_pc w = WSend out → st_exit s = None →
  (length (callback s) < callback_cap)%nat
  ∧ ∃ s', step v g db (Insert k) s = Some s'
          ∧ callback s' = callback s ++ [out].
Proof.
  intros Hr Hmax Hk Hpc He.
  destruct (in_flight_bound _ _ _ _ _ Hr) as (_ & Hle & _).
  assert (Hone : (1 ≤ sum_list_with holds_token (workers s))%nat).
  { destruct (sum_list_with holds_token (workers s)) eqn:E; [|lia].
    eapply sum_list_with_0 in E; [|done].
    unfold holds_token in E. by rewrite Hpc in E. }
  assert (Hlt : (length (callback s) < callback_cap)%nat).
  { unfold in_flight, callback_cap in *. lia. }
  split; [done|].
  unfold step, insert_step. rewrite He, Hk, Hpc.
  apply Nat.ltb_lt in Hlt. rewrite Hlt. eexists. split; done.
Qed.

Lemma callback_send_never_blocks_witness :
  ∃ s, reachable Upsert (demo_globals 1) db_exec_fails stdin_one_row s
       ∧ (length (callback s) < callback_cap)%nat.
Proof.
  eexists.
  match goal with |- ?R ∧ _ => assert (Hr : R) end.
  { eexists _, (take 8 sched_one_row_upsert).
    split; [reflexivity|vm_compute; reflexivity]. }
  split; [exact Hr|].
  refine (proj1 (callback_send_never_blocks _ _ _ _ _ 0%nat _ 0 Hr _ _ _ _)).
  - vm_compute. discriminate.
  - reflexivity.
  - reflexivity.
  - reflexivity.
Defined.

(** X15.  With [-conns 0] nothing is ever inserted: no task is
    dispatched, [main] stays blocked at [<-available] with the first data
    row in hand, and the report is printed only if the input has no data
    row. *)
Theorem zero_connections_insert_nothing (v : variant) (g : globals)
    (db : database) (stdin : list read_result) (s : state) :
  reachable v g db stdin s → MAX_SQL_CONNECTIONS g = 0 →
  workers s = [] ∧ available s = [] ∧ callback s = []
  ∧ insertions s = pending_count (c_pc s) ∧ fails s = 0
  ∧ (∀ r, m_pc s = MAcquire r → step v g db Main s = None)
  ∧ (∀ i f, LogReport i f ∈ st_log s → data_rows stdin = 0%nat).
Proof.
  intros Hr Hz.
  assert (Hw : workers s = []).
  { revert s Hr. apply reachable_ind.
    - intros s0 H0. unfold main_init in H0.
      destruct (db_open db); [done|]. destruct (db_ping db); [done|].
      destruct (MAX_SQL_CONNECTIONS g <? 0); [done|]. by simplify_eq.
    - intros a s s' Hr Hw Hs. apply reachable_invariant in Hr.
      destruct Hr as [[Htok _]]. rewrite Hz in Htok. unfold in_flight in Htok.
      step_cases Hs; simpl in *; try done;
        try (by match goal with
                | H : workers _ !! _ = Some _ |- _ => rewrite Hw in H
                end).
      all: try (destruct (_ <? 0); done).
      simpl in Htok. lia. }
  pose proof Hr as Hinv. apply reachable_invariant in Hinv.
  destruct Hinv as [[Htok _] _ _ _ Hins _ [Hle Hf] _ _ _ _ _ _].
  rewrite Hz in Htok. unfold in_flight in Htok.
  assert (Ha : available s = []) by (destruct (available s); simpl in *; [done|lia]).
  assert (Hc : callback s = []) by (destruct (callback s); simpl in *; [done|lia]).
  split_and!; try done.
  - unfold ins_ok, outcomes_taken in Hins. rewrite Hw, Hc in Hins. simpl in Hins.
    rewrite Hins. apply wrap_small. unfold Int.min, Int.max.
    destruct (c_pc s); simpl; lia.
  - rewrite Hw, Hc in *. simpl in *. rewrite Hf.
    replace (under_test (c_pc s)) with 0%nat by lia. done.
  - intros r Hpc. unfold step, main_step. destruct (st_exit s); [done|].
    by rewrite Hpc, Ha.
  - intros i f Hin. destruct (final_report_count _ _ _ _ _ _ _ Hr Hin) as [_ <-].
    by rewrite Hw.
Qed.

Lemma zero_connections_insert_nothing_witness :
  ∃ s, reachable Base (demo_globals 0) db_fine stdin_one_row s
       ∧ m_pc s = MAcquire ["1"; "Alice"] ∧ workers s = [].
Proof.
  eexists.
  match goal with |- ?R ∧ _ => assert (Hr : R) end.
  { eexists _, [Main; Main].
    split; [reflexivity|vm_compute; reflexivity]. }
  split; [exact Hr|]. split; [reflexivity|].
  exact (proj1 (zero_connections_insert_nothing _ _ _ _ _ Hr eq_refl)).
Defined.

Lemma sum_list_with_pos {A} (f : A → nat) (l : list A) :
  (0 < sum_list_with f l)%nat → ∃ k x, l !! k = Some x ∧ (0 < f x)%nat.
Proof.
  induction l as [|a l IH]; simpl; [lia|]. intros H.
  destruct (f a) eqn:E.
  - destruct IH as (k & x & Hk & Hx); [lia|]. by exists (S k), x.
  - exists 0%nat, a. split; [done|lia].
Qed.

Lemma insert_enabled v g db s k w :
  st_exit s = None → workers s !! k = Some w → w_pc w ≠ WExited →
  (length (callback s) < callback_cap)%nat →
  is_Some (step v g db (Insert k) s).
Proof.
  intros He Hk Hpc Hcb. unfold step, insert_step. rewrite He, Hk.
  apply Nat.ltb_lt in Hcb.
  destruct (w_pc w); try done; rewrite ?Hcb; repeat case_match;
    eexists; reflexivity.
Qed.

(** X16.  With at least one connection the pipeline cannot deadlock: as
    long as the process has not ended, [main], the collector or a
    goroutine of [insert] can take a step. *)
Theorem no_deadlock (v : variant) (g : globals) (db : database)
    (stdin : list read_result) (s : state) :
  reachable v g db stdin s → 0 < MAX_SQL_CONNECTIONS g → st_exit s = None →
  can_progress v g db s.
Proof.
  intros Hr Hpos He. apply reachable_invariant in Hr.
  destruct Hr as [[Htok _] _ _ Hwg _ _ _ _ _ _ _ _ _].
  unfold in_flight in Htok. unfold wg_ok in Hwg.
  assert (Hcoll : ¬ (c_pc s = CRecv ∧ callback s = []) →
                  is_Some (step v g db Collector s)).
  { intros Hn. unfold step, collector_step. rewrite He.
    destruct (c_pc s) eqn:Hpc; try by eexists.
    - destruct (callback s); [by destruct Hn|by eexists].
    - simpl in Htok.
      destruct (length (available s) <? Z.to_nat (MAX_SQL_CONNECTIONS g))%nat
        eqn:E; [by eexists|]. apply Nat.ltb_ge in E. lia. }
  assert (Hdec : (c_pc s = CRecv ∧ callback s = [])
                 ∨ ¬ (c_pc s = CRecv ∧ callback s = [])).
  { destruct (c_pc s); destruct (callback s);
      (by left) || (right; by intros [? ?]). }
  destruct Hdec as [[Hpc Hcb]|Hn];
    [|exists Collector; split; [done|by apply Hcoll]].
  rewrite Hpc, Hcb in Htok. simpl in Htok.
  assert (Hworker : ∀ f : worker → nat,
            (∀ w, (0 < f w)%nat → w_pc w ≠ WExited) →
            (0 < sum_list_with f (workers s))%nat → can_progress v g db s).
  { intros f Hf Hsum. apply sum_list_with_pos in Hsum as (k & w & Hk & Hw).
    exists (Insert k). split; [done|].
    eapply insert_enabled; [done|done|by apply Hf|].
    rewrite Hcb. unfold callback_cap. simpl. lia. }
  assert (Hmain : is_Some (main_step v g s) → can_progress v g db s).
  { intros H. exists Main. split; [done|]. unfold step. by rewrite He. }
  unfold main_step in Hmain.
  destruct (m_pc s) eqn:Hm; simpl in Htok.
  - apply Hmain. repeat case_match; by eexists.
  - destruct (available s) eqn:Ha.
    + apply (Hworker holds_token).
      * intros w Hw Hx. unfold holds_token in Hw. rewrite Hx in Hw. lia.
      * simpl in Htok. lia.
    + apply Hmain. repeat case_match; by eexists.
  - apply Hmain. by eexists.
  - apply Hmain. by eexists.
  - apply Hmain. by eexists.
  - destruct (wg s) eqn:Hw.
    + apply Hmain. by eexists.
    + apply (Hworker alive).
      * intros w Hw' Hx. unfold alive in Hw'. rewrite Hx in Hw'. lia.
      * lia.
  - apply Hmain. rewrite Hcb. by eexists.
  - apply Hmain. by eexists.
Qed.

Lemma no_deadlock_witness :
  ∃ s, reachable Upsert (demo_globals 1) db_exec_fails stdin_one_row s
       ∧ m_pc s = MWait ∧ can_progress Upsert (demo_globals 1) db_exec_fails s.
Proof.
  eexists.
  match goal with |- ?R ∧ _ => assert (Hr : R) end.
  { eexists _, (take 14 sched_one_row_upsert).
    split; [reflexivity|vm_compute; reflexivity]. }
  split; [exact Hr|]. split; [reflexivity|].
  refine (no_deadlock _ _ _ _ _ Hr _ _); reflexivity.
Defined.

Lemma without_status_step v g db a s :
  not_logger a = true →
  step v g db a (without_status s) = without_status <$> step v g db a s.
Proof.
  intros Ha. unfold step. simpl. destruct (st_exit s); [done|].
  destruct a; [| | |done].
  - unfold main_step. simpl. repeat case_match; try done.
    unfold without_status, add_log, set_exit. simpl.
    by rewrite filter_app.
  - unfold collector_step. simpl. repeat case_match; done.
  - unfold insert_step. simpl. repeat case_match; try done.
    all: unfold without_status, add_log, set_worker, set_workers; simpl.
    all: by rewrite filter_app.
Qed.

Lemma without_status_logger v g db s s' :
  step v g db Logger s = Some s' → without_status s' = without_status s.
Proof.
  unfold step, logger_step. destruct (st_exit s); [done|]. intros [= <-].
  unfold without_status, add_log. simpl. rewrite filter_app. simpl.
  by rewrite app_nil_r.
Qed.

Lemma without_status_run v g db sched s s' :
  run v g db sched s = Some s' →
  run v g db (filter (λ a, not_logger a = true) sched) (without_status s)
  = Some (without_status s').
Proof.
  revert s. induction sched as [|a sched IH]; intros s Hrun; simpl in Hrun.
  - by simplify_eq.
  - destruct (step v g db a s) as [s1|] eqn:Hs; [|done].
    destruct (not_logger a) eqn:Ha.
    + rewrite filter_cons_True by done. simpl.
      rewrite without_status_step, Hs by done. simpl. by apply IH.
    + rewrite filter_cons_False by (rewrite Ha; done).
      destruct a; try done.
      rewrite <- (without_status_logger _ _ _ _ _ Hs). by apply IH.
Qed.

(** X17.  The status logger only observes: take its steps out of any run
    from the start and the run still goes through, ending in the same
    state but for the status lines: the same counters, channels and
    goroutines, the same exit, the same error lines and report. *)
Theorem logger_only_observes (v : variant) (g : globals) (db : database)
    (stdin : list read_result) (sched : list actor) (s0 s : state) :
  main_init v g db stdin = inl s0 → run v g db sched s0 = Some s →
  run v g db (filter (λ a, not_logger a = true) sched) s0
  = Some (without_status s)
  ∧ insertions (without_status s) = insertions s
  ∧ fails (without_status s) = fails s
  ∧ st_exit (without_status s) = st_exit s
  ∧ workers (without_status s) = workers s
  ∧ st_log (without_status s)
    = filter (λ l, is_status l = false) (st_log s).
Proof.
  intros H0 Hrun. split; [|done].
  apply without_status_run in Hrun.
  replace (without_status s0) with s0 in Hrun; [done|].
  unfold main_init in H0.
  destruct (db_open db); [done|]. destruct (db_ping db); [done|].
  destruct (MAX_SQL_CONNECTIONS g <? 0); [done|]. by simplify_eq.
Qed.

Lemma logger_only_observes_witness :
  ∃ s0 s,
    main_init Upsert (demo_globals 1) db_fine stdin_header_only = inl s0
    ∧ run Upsert (demo_globals 1) db_fine
          [Logger; Collector; Logger; Main; Main; Main; Logger; Main; Main]
          s0 = Some s
    ∧ run Upsert (demo_globals 1) db_fine sched_header_only s0
      = Some (without_status s).
Proof.
  eexists _, _.
  match goal with |- ?R ∧ _ => assert (H0 : R) by reflexivity end.
  split; [exact H0|].
  match goal with |- ?R ∧ _ =>
    assert (Hrun : R) by (vm_compute; reflexivity)
  end.
  split; [exact Hrun|].
  exact (proj1 (logger_only_observes _ _ _ _ _ _ _ H0 Hrun)).
Defined.

(** X18.  In [Upsert] no status line ever shows more connections in use
    than [MAX_SQL_CONNECTIONS]. *)
Theorem upsert_status_lines_bounded (g : globals) (db : database)
    (stdin : list read_result) (s : state) (i c f : Z) :
  reachable Upsert g db stdin s → LogStatus i c f ∈ st_log s →
  c <= MAX_SQL_CONNECTIONS g.
Proof.
  intros Hr. revert s Hr i c f. apply (reachable_ind Upsert g db stdin
    (λ s, ∀ i c f, LogStatus i c f ∈ st_log s → c <= MAX_SQL_CONNECTIONS g)).
  - intros s0 H0 i c f Hin. unfold main_init in H0.
    destruct (db_open db); [done|]. destruct (db_ping db); [done|].
    destruct (MAX_SQL_CONNECTIONS g <? 0); [done|]. simplify_eq.
    by apply elem_of_nil in Hin.
  - intros a s s' Hr IH Hs i c f Hin.
    destruct (upsert_connections_bound _ _ _ _ Hr) as [_ Hb].
    step_cases Hs; simpl in *; eauto.
    all: try (destruct (_ <? 0); simpl in *; eauto).
    all: apply elem_of_app in Hin as [Hin|Hin]; [by eauto|].
    all: apply list_elem_of_singleton in Hin; by simplify_eq.
Qed.

Lemma upsert_status_lines_bounded_witness :
  ∃ s, reachable Upsert (demo_globals 1) db_fine stdin_header_only s
       ∧ LogStatus 1 0 0 ∈ st_log s ∧ 0 <= 1.
Proof.
  eexists.
  match goal with |- ?R ∧ _ => assert (Hr : R) end.
  { eexists _, [Collector; Logger].
    split; [reflexivity|vm_compute; reflexivity]. }
  split; [exact Hr|].
  match goal with |- ?R ∧ _ => assert (Hin : R) by (vm_compute; left) end.
  split; [exact Hin|].
  exact (upsert_status_lines_bounded _ _ _ _ _ _ _ Hr Hin).
Defined.



Lemma worker_persists v g db a s s' k w :
  step v g db a s = Some s' → workers s !! k = Some w → past_exec w = true →
  ∃ w', workers s' !! k = Some w' ∧ w_id w' = w_id w
        ∧ w_query w' = w_query w ∧ w_args w' = w_args w
        ∧ past_exec w' = true.
Proof.
  intros Hs Hk Hp.
  step_cases Hs; simpl in *; eauto 10.
  all: try (destruct (_ <? 0); simpl in *; eauto 10).
  all: try (eexists; split; [by apply lookup_app_l_Some|done]).
  all: match goal with
       | H : workers _ !! ?k0 = Some ?w0 |- context [<[?k0:=_]> _] =>
         destruct (decide (k = k0)) as [->|Hne];
         [rewrite list_lookup_insert_eq by (by eapply lookup_lt_Some);
          assert (w0 = w) by congruence; subst w0;
          eexists; split; [done|]; unfold past_exec in *; simpl;
          split_and!; try done;
          repeat match goal with H : w_pc _ = _ |- _ => rewrite H in * end;
          try done; by destruct v
         |rewrite list_lookup_insert_ne by done; eauto 10]
       end.
Qed.

(** X20.  An error line is logged only for a task whose [Exec] failed,
    with that task's id and the error it got; [Base] adds the
    connections counter it read, [Upsert] does not. *)
Theorem error_lines_are_real_failures (v : variant) (g : globals)
    (db : database) (stdin : list read_result) (s : state)
    (i : Z) (c : option Z) (err : string) :
  reachable v g db stdin s → LogInsertError i c err ∈ st_log s →
  (∃ k w, workers s !! k = Some w ∧ w_id w = i
          ∧ db_exec db (w_id w) (w_query w) (w_args w) = Some err
          ∧ past_exec w = true)
  ∧ (is_Some c ↔ v = Base).
Proof.
  intros Hr. revert s Hr i c err.
  apply (reachable_ind v g db stdin
    (λ s, ∀ i c err, LogInsertError i c err ∈ st_log s →
       (∃ k w, workers s !! k = Some w ∧ w_id w = i
               ∧ db_exec db (w_id w) (w_query w) (w_args w) = Some err
               ∧ past_exec w = true)
       ∧ (is_Some c ↔ v = Base))).
  - intros s0 H0 i c err Hin. unfold main_init in H0.
    destruct (db_open db); [done|]. destruct (db_ping db); [done|].
    destruct (MAX_SQL_CONNECTIONS g <? 0); [done|]. simplify_eq.
    by apply elem_of_nil in Hin.
  - intros a s s' _ IH Hs i c err Hin.
    assert (Hold : LogInsertError i c err ∈ st_log s →
      (∃ k w, workers s' !! k = Some w ∧ w_id w = i
              ∧ db_exec db (w_id w) (w_query w) (w_args w) = Some err
              ∧ past_exec w = true)
      ∧ (is_Some c ↔ v = Base)).
    { intros Hin'. destruct (IH _ _ _ Hin') as [(k & w & Hk & Hi & He & Hp) Hc].
      split; [|done].
      destruct (worker_persists _ _ _ _ _ _ _ _ Hs Hk Hp)
        as (w' & Hk' & Hi' & Hq' & Ha' & Hp').
      exists k, w'. rewrite Hi', Hq', Ha'. done. }
    clear IH.
    step_cases Hs; simpl in *; eauto.
    all: try (destruct (_ <? 0); simpl in *; eauto).
    all: apply elem_of_app in Hin as [Hin|Hin]; [by eauto|].
    all: apply list_elem_of_singleton in Hin; simplify_eq.
    clear Hold. split.
    + eexists k, _. split;
        [apply list_lookup_insert_eq; by eapply lookup_lt_Some|].
      simpl. split_and!; try done. by destruct v.
    + destruct v; split; try done; by eexists.
Qed.

Lemma error_lines_are_real_failures_witness :
  ∃ s, reachable Upsert (demo_globals 1) db_exec_fails stdin_one_row s
       ∧ ∃ k w, workers s !! k = Some w ∧ w_id w = 0
                ∧ past_exec w = true.
Proof.
  eexists.
  match goal with |- ?R ∧ _ => assert (Hr : R) end.
  { eexists _, sched_one_row_upsert.
    split; [reflexivity|vm_compute; reflexivity]. }
  split; [exact Hr|].
  destruct (proj1 (error_lines_are_real_failures _ _ _ _ _
              0 None "Error 1062: Duplicate entry" Hr
              ltac:(vm_compute; left)))
    as (k & w & Hk & Hi & _ & Hp).
  by exists k, w.
Defined.

(** X21.  [Upsert] counts every failure but that of its first task: with
    fewer than 2^63 lines of input, [fails] is the number of tasks after
    the first whose [Exec] failed and that have sent their outcome, less
    the failures still queued in [callback] and the one the collector is
    testing. *)
Theorem upsert_counts_all_but_first (g : globals) (db : database)
    (stdin : list read_result) (s : state) :
  reachable Upsert g db stdin s → Z.of_nat (length stdin) < Int.max →
  fails s
  = Z.of_nat (sum_list_with (failed_sent db) (tail (workers s)))
    - Z.of_nat (sum_list_with is_negative (callback s))
    - Z.of_nat (under_test (c_pc s)).
Proof.
  intros Hr Hlen.
  assert (Hsum : sum_list_with (reported_failure db) (workers s)
                 = sum_list_with (failed_sent db) (tail (workers s))).
  { destruct (workers s) as [|w0 rest] eqn:Hw; [done|]. simpl.
    assert (H0 : reported_failure db w0 = 0%nat).
    { destruct (task_id_in_range _ _ _ _ _ 0%nat w0 Hr Hlen) as (Hid & _).
      { by rewrite Hw. }
      simpl in Hid. unfold reported_failure, outcome. rewrite Hid.
      by destruct (db_exec _ _ _ _). }
    rewrite H0. simpl. apply sum_list_with_eq_Forall, Forall_lookup.
    intros k w Hk.
    destruct (task_id_in_range _ _ _ _ _ (S k) w Hr Hlen) as (Hid & Hrange & _).
    { by rewrite Hw. }
    simpl in Hid.
    unfold reported_failure, failed_sent, outcome, is_negative.
    destruct (db_exec db (w_id w) (w_query w) (w_args w)).
    - pose proof (neg_positive (w_id w)).
      destruct (Int.neg (w_id w) <? 0) eqn:E; [lia|].
      apply Z.ltb_ge in E. lia.
    - destruct (w_id w <? 0) eqn:E; [apply Z.ltb_lt in E|]; lia. }
  assert (Hfs : (sum_list_with (failed_sent db) (tail (workers s))
                 ≤ length (workers s))%nat).
  { etrans; [apply sum_list_with_bound|].
    - intros w. unfold failed_sent, has_sent.
      destruct (db_exec _ _ _ _); [|lia]. destruct (w_pc w); lia.
    - destruct (workers s); simpl; lia. }
  assert (Hlw : Z.of_nat (length (workers s)) < Int.max).
  { destruct (workers_at_most_input _ _ _ _ _ Hr) as [Hw|Hw]; [lia|].
    rewrite Hw. simpl. unfold Int.max. lia. }
  apply reachable_invariant in Hr. destruct Hr as [_ _ _ _ _ _ [Hle Hf]].
  rewrite Hf, Hsum in *. rewrite wrap_small; unfold Int.min, Int.max in *; lia.
Qed.

Lemma upsert_counts_all_but_first_witness :
  ∃ s, reachable Upsert (demo_globals 1) db_exec_fails stdin_one_row s
       ∧ fails s = 0.
Proof.
  eexists.
  match goal with |- ?R ∧ _ => assert (Hr : R) end.
  { eexists _, sched_one_row_upsert.
    split; [reflexivity|vm_compute; reflexivity]. }
  split; [exact Hr|].
  refine (eq_trans (upsert_counts_all_but_first _ _ _ _ Hr _) _).
  - vm_compute. reflexivity.
  - vm_compute. reflexivity.
Defined.




Lemma single_token_ok_step g db stdin a s s' :
  MAX_SQL_CONNECTIONS g = 1 → reachable Base g db stdin s →
  step Base g db a s = Some s' → single_token_ok s → single_token_ok s'.
Proof.
  intros Hone Hr Hs (Hc & Hm & Hcl & Hw).
  apply reachable_invariant in Hr. destruct Hr as [[Htok Htrue] _ _ _ _ _ _ _ _ _ _ _ _].
  rewrite Hone in Htok. unfold in_flight in Htok.
  unfold single_token_ok, counted_base in *.
  assert (Hw' : Forall (λ w, match w_pc w with
                             | WAdd | WSub _ => False | _ => True end)
                       (workers s')).
  { step_cases Hs; simpl in *; try done.
    all: try (destruct (_ <? 0); done).
    all: try (apply Forall_app; split; [done|]; by repeat constructor).
    all: try (apply Forall_insert; [done|]; done).
    all: eapply Forall_lookup_1 in Hw; [|done];
         by match goal with H : w_pc _ = _ |- _ => rewrite H in Hw end. }
  split_and!; [| | |done].
  all: clear Hw'.
  all: step_cases Hs; simpl in *.
  all: try match goal with
       | Hk : workers _ !! _ = Some ?w, Hp : w_pc ?w = _ |- _ =>
         let Hx := fresh in
         pose proof (Forall_lookup_1 _ _ _ _ Hw Hk) as Hx;
         simpl in Hx; rewrite Hp in Hx; simpl in Hx;
         try (exfalso; exact Hx)
       end.
  all: clear Hw.
  all: split_goal_cases; simpl in *; use_pcs; simpl in *;
       rewrite ?length_app, ?sum_list_with_app in *; simpl in *.
  all: sum_facts; unfold holds_token in *; simpl in *; use_pcs; simpl in *.
  all: try (inversion Htrue; discriminate).
  all: try done.
  all: try lia.
  all: repeat match goal with
       | H : context [match ?x with _ => _ end] |- _ =>
         destruct x eqn:?; simpl in *
       | |- context [match ?x with _ => _ end] =>
         destruct x eqn:?; simpl in *
       end; try done; try lia.
  all: subst; try change (Int.add 0 1) with 1;
       try change (Int.sub 1 1) with 0; lia.
Qed.

(** X23.  The lost update of [Base] needs two tokens: with [-conns 1]
    the loads and stores of [main] and of the collector never interleave,
    and [connections] is exactly the number of tasks between the
    increment and the decrement, 0 or 1. *)
Theorem base_single_connection_exact (g : globals) (db : database)
    (stdin : list read_result) (s : state) :
  reachable Base g db stdin s → MAX_SQL_CONNECTIONS g = 1 →
  connections s = Z.of_nat (counted_base s)
  ∧ 0 <= connections s <= 1.
Proof.
  intros Hr Hone.
  assert (H : single_token_ok s).
  { revert s Hr. apply reachable_ind.
    - intros s0 H0. unfold main_init in H0.
      destruct (db_open db); [done|]. destruct (db_ping db); [done|].
      destruct (MAX_SQL_CONNECTIONS g <? 0); [done|]. simplify_eq.
      split_and!; done.
    - intros a s s' Hr IH Hs. by eapply single_token_ok_step. }
  destruct H as (Hc & _). split; [done|].
  destruct (in_flight_bound _ _ _ _ _ Hr) as (_ & Hle & _).
  rewrite Hone in Hle. unfold in_flight in Hle.
  rewrite Hc. unfold counted_base.
  destruct (m_pc s); destruct (c_pc s); simpl in *; lia.
Qed.

Lemma base_single_connection_exact_witness :
  ∃ s, reachable Base (demo_globals 1) db_exec_fails stdin_one_row s
       ∧ 0 <= connections s <= 1.
Proof.
  eexists.
  match goal with |- ?R ∧ _ => assert (Hr : R) end.
  { eexists _, (take 8 sched_one_row_base).
    split; [reflexivity|vm_compute; reflexivity]. }
  split; [exact Hr|].
  exact (proj2 (base_single_connection_exact _ _ _ _ Hr eq_refl)).
Defined.

Lemma send_step v g db a s s' :
  step v g db a s = Some s' →
  (is_send a s + sum_list_with has_sent (workers s)
   = sum_list_with has_sent (workers s'))%nat
  ∧ (is_send a s + length (callback s)
     = is_receive a s + length (callback s'))%nat.
Proof.
  intros H. unfold is_send, is_receive.
  prep H.
  all: try match goal with
       | Hk : workers _ !! _ = Some _ |- _ => rewrite Hk
       end.
  all: sum_facts; unfold has_sent in *; simpl in *; use_pcs; simpl in *.
  all: try lia.
  all: destruct (c_pc _); lia.
Qed.

Lemma send_run v g db sched s s' :
  run v g db sched s = Some s' →
  (count_steps v g db is_send sched s + sum_list_with has_sent (workers s)
   = sum_list_with has_sent (workers s'))%nat
  ∧ (count_steps v g db is_send sched s + length (callback s)
     = count_steps v g db is_receive sched s + length (callback s'))%nat.
Proof.
  revert s. induction sched as [|a sched IH]; intros s Hrun; simpl in *.
  - simplify_eq. lia.
  - destruct (step v g db a s) as [s1|] eqn:Hs; [|done].
    destruct (send_step _ _ _ _ _ _ Hs). destruct (IH s1 Hrun). lia.
Qed.

(** X24.  Every task reports exactly one outcome, whether its [Exec]
    failed or not, and no outcome is lost or taken twice: along every run
    from the start the sends on [callback] are as many as the goroutines
    past their send, and the collector's receives are the sends less the
    outcomes still queued. *)
Theorem one_outcome_per_task (v : variant) (g : globals) (db : database)
    (stdin : list read_result) (sched : list actor) (s0 s : state) :
  main_init v g db stdin = inl s0 → run v g db sched s0 = Some s →
  count_steps v g db is_send sched s0
  = sum_list_with has_sent (workers s)
  ∧ (count_steps v g db is_receive sched s0 + length (callback s))%nat
    = count_steps v g db is_send sched s0
  ∧ (∀ k w, workers s !! k = Some w →
       ∀ out, w_pc w = WSend out → out = outcome db w).
Proof.
  intros H0 Hrun. destruct (send_run _ _ _ _ _ _ Hrun) as [H1 H2].
  assert (Hs0 : workers s0 = [] ∧ callback s0 = []).
  { unfold main_init in H0.
    destruct (db_open db); [done|]. destruct (db_ping db); [done|].
    destruct (MAX_SQL_CONNECTIONS g <? 0); [done|]. by simplify_eq. }
  destruct Hs0 as [Hw Hc]. rewrite Hw in H1. rewrite Hc in H2. simpl in *.
  split_and!; [lia|lia|].
  intros k w Hk out Hpc.
  pose proof (invariant_run _ _ _ _ _ _ _ Hrun (invariant_init _ _ _ _ _ H0))
    as [_ _ _ _ _ Houts _ _ _ _ _ _ _].
  eapply Forall_lookup_1 in Houts; [|done].
  unfold out_ok in Houts. by rewrite Hpc in Houts.
Qed.

Lemma one_outcome_per_task_witness :
  ∃ s0 s,
    main_init Upsert (demo_globals 1) db_exec_fails stdin_one_row = inl s0
    ∧ run Upsert (demo_globals 1) db_exec_fails sched_one_row_upsert s0 = Some s
    ∧ count_steps Upsert (demo_globals 1) db_exec_fails is_send
        sched_one_row_upsert s0 = sum_list_with has_sent (workers s).
Proof.
  eexists _, _.
  match goal with |- ?R ∧ _ => assert (H0 : R) by reflexivity end.
  split; [exact H0|].
  match goal with |- ?R ∧ _ =>
    assert (Hrun : R) by (vm_compute; reflexivity)
  end.
  split; [exact Hrun|].
  exact (proj1 (one_outcome_per_task _ _ _ _ _ _ _ H0 Hrun)).
Defined.
